(** * generateTranslations: a Google Sheet (CSV) to i18n JSON files

    A shallow embedding of the conversion script
    [scripts/generateTranslations.js] and the properties of its
    transformation that the specification states.

    Layout of the development:
    - [JSString]  : JavaScript strings as sequences of UTF-16 code units,
                    [String.prototype.trim] and the three global [replace]
                    calls of the script;
    - [JSObject]  : ordinary objects as their ordered own properties, and
                    [Set] as an insertion-ordered sequence;
    - [JSON]      : [JSON.stringify(value, null, 2)] on the values the
                    script serialises;
    - [Papa]      : a reader for comma separated text, standing for the
                    external parser the script calls;
    - [Script]    : the row loop, the writer and the whole run. *)

From Stdlib Require Import String Ascii NArith List Lia.
From Stdlib Require Import DecimalString DecimalN.
From stdpp Require Import base option list gmap.

Local Open Scope N_scope.

(* ===================================================================== *)
(** ** JavaScript strings *)
(* ===================================================================== *)

Module JSString.

(** A JavaScript string is a finite sequence of 16-bit code units; regular
    expressions without the [u] flag and [trim] both work on code units. *)
Definition codeunit := N.
Definition jsstring := list codeunit.

(** Literals: an ASCII text read as code units. *)
Definition js (s : string) : jsstring :=
  map N_of_ascii (list_ascii_of_string s).

Definition BACKSLASH : codeunit := 92.
Definition QUOTE : codeunit := 34.
Definition CR : codeunit := 13.
Definition LF : codeunit := 10.
Definition LETTER_n : codeunit := 110.
Definition COMMA : codeunit := 44.

(** [WhiteSpace] and [LineTerminator] of ECMAScript: what [trim] strips. *)
Definition is_white_space (c : codeunit) : bool :=
  (9 <=? c) && (c <=? 13)
  || (c =? 32) || (c =? 160) || (c =? 5760)
  || (8192 <=? c) && (c <=? 8202)
  || (c =? 8232) || (c =? 8233) || (c =? 8239) || (c =? 8287)
  || (c =? 12288) || (c =? 65279).

Fixpoint trimStart (s : jsstring) : jsstring :=
  match s with
  | [] => []
  | c :: rest => if is_white_space c then trimStart rest else s
  end.

Definition trimEnd (s : jsstring) : jsstring := rev (trimStart (rev s)).

(** [s.trim()] *)
Definition trim (s : jsstring) : jsstring := trimEnd (trimStart s).

(** [s.replace(/\\/g, "\\\\")]: every backslash becomes two. *)
Definition replace_backslash (s : jsstring) : jsstring :=
  flat_map (fun c => if c =? BACKSLASH then [BACKSLASH; BACKSLASH] else [c]) s.

(** [s.replace(/"/g, '\\"')]: every double quote gets a backslash in front. *)
Definition replace_quote (s : jsstring) : jsstring :=
  flat_map (fun c => if c =? QUOTE then [BACKSLASH; QUOTE] else [c]) s.

(** [s.replace(/\r?\n/g, "\\n")]: the scan is left to right; at a carriage
    return the optional [\r] is taken only when a line feed follows. *)
Fixpoint replace_newline (s : jsstring) : jsstring :=
  match s with
  | [] => []
  | c :: rest =>
      if c =? LF then BACKSLASH :: LETTER_n :: replace_newline rest
      else if c =? CR then
        match rest with
        | d :: rest' =>
            if d =? LF then BACKSLASH :: LETTER_n :: replace_newline rest'
            else c :: replace_newline rest
        | [] => [c]
        end
      else c :: replace_newline rest
  end.

(** The expression bound to [safeValue] in the script. *)
Definition safeValue (value : jsstring) : jsstring :=
  trim (replace_newline (replace_quote (replace_backslash value))).

(** [p] occurs in [s] as a contiguous run of code units. *)
Definition occurs_in (p s : jsstring) : Prop :=
  exists a b, s = a ++ p ++ b.

(** A string made of white space only (the empty string included). *)
Definition blank (s : jsstring) : Prop := Forall (fun c => is_white_space c = true) s.

End JSString.
Export JSString.


(* ===================================================================== *)
(** ** Ordinary objects and sets *)
(* ===================================================================== *)

Module JSObject.

Definition is_digit (c : codeunit) : bool := (48 <=? c) && (c <=? 57).

Fixpoint decimal_value (acc : N) (s : jsstring) : option N :=
  match s with
  | [] => Some acc
  | c :: rest =>
      if is_digit c then decimal_value (10 * acc + (c - 48)) rest else None
  end.

(** A property name is an array index when it is the canonical decimal
    form of an integer between 0 and 2^32 - 2. *)
Definition array_index (k : jsstring) : option N :=
  match k with
  | [] => None
  | c :: rest =>
      if (c =? 48) && negb (bool_decide (rest = [])) then None
      else match decimal_value 0 k with
           | Some n => if n <=? 4294967294 then Some n else None
           | None => None
           end
  end.

(** An object is the sequence of its own enumerable string-keyed
    properties in the order [Object.entries] and [JSON.stringify] visit
    them: array indices in ascending numeric order first, then the other
    names in the order they were created.  Properties inherited from
    [Object.prototype] are not part of the model. *)
Definition obj (A : Type) := list (jsstring * A).

(** [o[k]], [None] standing for [undefined]. *)
Fixpoint get {A} (k : jsstring) (o : obj A) : option A :=
  match o with
  | [] => None
  | (k', v) :: rest => if decide (k' = k) then Some v else get k rest
  end.

Fixpoint replace_value {A} (k : jsstring) (v : A) (o : obj A) : obj A :=
  match o with
  | [] => []
  | (k', v') :: rest =>
      if decide (k' = k) then (k, v) :: rest
      else (k', v') :: replace_value k v rest
  end.

(** Where a new array-index property lands among the existing ones. *)
Fixpoint add_index {A} (n : N) (k : jsstring) (v : A) (o : obj A) : obj A :=
  match o with
  | [] => [(k, v)]
  | (k', v') :: rest =>
      match array_index k' with
      | Some m => if m <? n then (k', v') :: add_index n k v rest
                  else (k, v) :: o
      | None => (k, v) :: o
      end
  end.

Definition add {A} (k : jsstring) (v : A) (o : obj A) : obj A :=
  match array_index k with
  | Some n => add_index n k v o
  | None => o ++ [(k, v)]
  end.

(** [o[k] = v]: an existing property keeps its place, a new one is
    created (for every name but [__proto__], which the statements that
    rely on the creation exclude). *)
Definition put {A} (k : jsstring) (v : A) (o : obj A) : obj A :=
  match get k o with
  | Some _ => replace_value k v o
  | None => add k v o
  end.

(** [Object.keys(o)] *)
Definition keys {A} (o : obj A) : list jsstring := fst <$> o.

(** [s.add(x)] on a [Set], kept as the sequence [[...s]] yields. *)
Definition set_add (x : jsstring) (s : list jsstring) : list jsstring :=
  if decide (x ∈ s) then s else s ++ [x].

End JSObject.
Export JSObject.

(* ===================================================================== *)
(** ** JSON.stringify(value, null, 2) *)
(* ===================================================================== *)

Module JSON.

Definition hex_digit (n : N) : codeunit :=
  if n <? 10 then 48 + n else 87 + n.

(** [\uXXXX] with lower-case hexadecimal digits. *)
Definition unicode_escape (c : codeunit) : jsstring :=
  [BACKSLASH; 117; hex_digit ((c / 4096) mod 16); hex_digit ((c / 256) mod 16);
   hex_digit ((c / 16) mod 16); hex_digit (c mod 16)].

Definition is_high_surrogate (c : codeunit) : bool := (55296 <=? c) && (c <=? 56319).
Definition is_low_surrogate (c : codeunit) : bool := (56320 <=? c) && (c <=? 57343).

Definition quote_unit (c : codeunit) : jsstring :=
  if c =? 8 then [BACKSLASH; 98]
  else if c =? 9 then [BACKSLASH; 116]
  else if c =? 10 then [BACKSLASH; 110]
  else if c =? 12 then [BACKSLASH; 102]
  else if c =? 13 then [BACKSLASH; 114]
  else if c =? QUOTE then [BACKSLASH; QUOTE]
  else if c =? BACKSLASH then [BACKSLASH; BACKSLASH]
  else if c <? 32 then unicode_escape c
  else [c].

(** The body of [QuoteJSONString]: a surrogate pair is copied, a lone
    surrogate is escaped. *)
Fixpoint quote_units (s : jsstring) : jsstring :=
  match s with
  | [] => []
  | c :: rest =>
      if is_high_surrogate c then
        match rest with
        | d :: rest' =>
            if is_low_surrogate d then c :: d :: quote_units rest'
            else unicode_escape c ++ quote_units rest
        | [] => unicode_escape c
        end
      else if is_low_surrogate c then unicode_escape c ++ quote_units rest
      else quote_unit c ++ quote_units rest
  end.

Definition QuoteJSONString (s : jsstring) : jsstring :=
  QUOTE :: quote_units s ++ [QUOTE].

Fixpoint join (sep : jsstring) (parts : list jsstring) : jsstring :=
  match parts with
  | [] => []
  | p :: rest =>
      match rest with
      | [] => p
      | _ :: _ => p ++ sep ++ join sep rest
      end
  end.

Definition member (kv : jsstring * jsstring) : jsstring :=
  js "  " ++ QuoteJSONString (fst kv) ++ js ": " ++ QuoteJSONString (snd kv).

(** An object whose values are strings, indented by two spaces. *)
Definition stringify_object (o : obj jsstring) : jsstring :=
  match o with
  | [] => js "{}"
  | _ :: _ => js "{" ++ [LF] ++ join [COMMA; LF] (map member o) ++ [LF] ++ js "}"
  end.

(** An array of strings, indented by two spaces. *)
Definition stringify_array (l : list jsstring) : jsstring :=
  match l with
  | [] => js "[]"
  | _ :: _ =>
      js "[" ++ [LF]
      ++ join [COMMA; LF] (map (fun s => js "  " ++ QuoteJSONString s) l)
      ++ [LF] ++ js "]"
  end.

End JSON.
Export JSON.

(* ===================================================================== *)
(** ** The CSV reader *)
(* ===================================================================== *)

Module Papa.

(** A field of a parsed record: text, or the array stored under
    [__parsed_extra] when a line has more fields than the header. *)
Inductive cell :=
  | Str (s : jsstring)
  | Extra (l : list jsstring).

(** One record of [Papa.parse(text, {header: true}).data]. *)
Definition row := obj cell.

(** [Papa.parse] belongs to the papaparse package, not to this
    repository.  The reader below stands for it on comma separated text
    with LF or CRLF line ends and double-quoted fields (a doubled quote
    inside a quoted field is one quote), the dialect a published sheet is
    served in; the script is also stated over an arbitrary parser. *)
Fixpoint read_records (s : jsstring) (quoted : bool) (field : jsstring)
    (record : list jsstring) : list (list jsstring) :=
  match s with
  | [] => [rev (rev field :: record)]
  | c :: rest =>
      if quoted then
        if c =? QUOTE then
          match rest with
          | d :: rest' =>
              if d =? QUOTE then read_records rest' true (QUOTE :: field) record
              else read_records rest false field record
          | [] => read_records rest false field record
          end
        else read_records rest true (c :: field) record
      else if (c =? QUOTE) && bool_decide (field = []) then
        read_records rest true field record
      else if c =? COMMA then read_records rest false [] (rev field :: record)
      else if c =? LF then
        rev (rev field :: record) :: read_records rest false [] []
      else if c =? CR then
        match rest with
        | d :: rest' =>
            if d =? LF then
              rev (rev field :: record) :: read_records rest' false [] []
            else read_records rest false (c :: field) record
        | [] => read_records rest false (c :: field) record
        end
      else read_records rest false (c :: field) record
  end.

Definition parsed_extra : jsstring := js "__parsed_extra".

(** The record object of one line: [row[field] = value] for each value
    under its header name, the values past the header collected in an
    array. *)
Fixpoint processRow (fields values : list jsstring) (r : row) : row :=
  match values with
  | [] => r
  | v :: values' =>
      match fields with
      | f :: fields' => processRow fields' values' (put f (Str v) r)
      | [] =>
          let extra := match get parsed_extra r with
                       | Some (Extra l) => l
                       | _ => []
                       end in
          processRow [] values' (put parsed_extra (Extra (extra ++ [v])) r)
      end
  end.

Definition stripBom (s : jsstring) : jsstring :=
  match s with
  | c :: rest => if c =? 65279 then rest else s
  | [] => []
  end.

Definition parse (text : jsstring) : list row :=
  match read_records (stripBom text) false [] [] with
  | header :: data => map (fun values => processRow header values []) data
  | [] => []
  end.

(** The header names of a text, for statements about the header row. *)
Definition header (text : jsstring) : list jsstring :=
  match read_records (stripBom text) false [] [] with
  | header :: _ => header
  | [] => []
  end.

End Papa.
Export Papa(cell, Str, Extra, row).

(* ===================================================================== *)
(** ** The script *)
(* ===================================================================== *)

Module Script.

(** A run of the loop either completes or throws a [TypeError] (calling
    [trim] or [replace] on a value that is not a string). *)
Inductive result (A : Type) :=
  | Ok (a : A)
  | TypeError.
Arguments Ok {A} a.
Arguments TypeError {A}.

(** The three containers of step 4. *)
Record tables := {
  translations : obj (obj jsstring);   (* { lang: { key: value } } *)
  keyMap : obj jsstring;               (* { key: key } *)
  languages : list jsstring            (* Set of language codes *)
}.

Definition empty_tables : tables :=
  {| translations := []; keyMap := []; languages := [] |}.

(** [for (const x of l) body], stopping at the first exception. *)
Fixpoint for_of {A S} (body : S -> A -> result S) (l : list A) (st : S)
    : result S :=
  match l with
  | [] => Ok st
  | x :: rest =>
      match body st x with
      | Ok st' => for_of body rest st'
      | TypeError => TypeError
      end
  end.

(** [!value] *)
Definition falsy (value : cell) : bool :=
  match value with
  | Str s => bool_decide (s = [])
  | Extra _ => false
  end.

Definition key_column : jsstring := js "key".

(** The body of the inner loop, for one [[lang, value]] of
    [Object.entries(row)].  [translations[lang]] and the two assignments
    are read on own properties: this is the program for a [lang] outside
    [Domain.object_prototype_names] and a [rawKey] other than
    [__proto__]. *)
Definition column_step (rawKey : jsstring) (st : tables)
    (entry : jsstring * cell) : result tables :=
  let (lang, value) := entry in
  if bool_decide (lang = key_column) || falsy value then Ok st
  else
    (* translations[lang] ??= {} *)
    let translations1 :=
      match get lang (translations st) with
      | Some _ => translations st
      | None => put lang [] (translations st)
      end in
    (* languages.add(lang) *)
    let languages1 := set_add lang (languages st) in
    match value with
    | Str v =>
        let inner := default [] (get lang translations1) in
        (* translations[lang][rawKey] = safeValue *)
        Ok {| translations := put lang (put rawKey (safeValue v) inner) translations1;
              keyMap := keyMap st;
              languages := languages1 |}
    | Extra _ => TypeError
    end.

(** The body of the outer loop, for one row. *)
Definition row_step (st : tables) (r : row) : result tables :=
  match get key_column r with
  | None => Ok st                       (* row.key?.trim() is undefined *)
  | Some (Extra _) => TypeError
  | Some (Str k) =>
      let rawKey := trim k in
      if bool_decide (rawKey = []) then Ok st
      else
        let st1 := {| translations := translations st;
                      keyMap := put rawKey rawKey (keyMap st);
                      languages := languages st |} in
        for_of (column_step rawKey) r st1
  end.

(** Step 5: the whole pass over the rows. *)
Definition transform_from (st : tables) (rows : list row) : result tables :=
  for_of row_step rows st.

Definition transform (rows : list row) : result tables :=
  transform_from empty_tables rows.

(** The output directory: whether [src/i18n/locales] exists, and the
    files in it by name. *)
Record disk := {
  locales_dir : bool;
  files : gmap jsstring jsstring
}.

Definition mkdirSync (d : disk) : disk :=
  {| locales_dir := true; files := files d |}.

(** [fs.writeFileSync(path.join(outputDir, name), contents)], taken to
    succeed. *)
Definition writeFileSync (d : disk) (file : jsstring * jsstring) : disk :=
  {| locales_dir := locales_dir d; files := <[fst file := snd file]> (files d) |}.

(** The name under which [path.join(outputDir, name + ".json")] puts the
    file, for a [name] that [path.join] leaves in the output directory
    (see [Domain.flat_name]); the writes are taken to succeed. *)
Definition json_file (name : jsstring) : jsstring := name ++ js ".json".
Definition keys_json : jsstring := js "keys.json".
Definition languages_json : jsstring := js "languages.json".

(** Step 7: one write per entry of [translations]. *)
Definition language_writes (st : tables) : list (jsstring * jsstring) :=
  (fun entry => (json_file (fst entry), stringify_object (snd entry)))
    <$> translations st.

(** Steps 7 to 9, in the order the script performs them. *)
Definition writes (st : tables) : list (jsstring * jsstring) :=
  language_writes st
  ++ [(keys_json, stringify_object (keyMap st));
      (languages_json, stringify_array (languages st))].

Definition write_all (ws : list (jsstring * jsstring)) (d : disk) : disk :=
  foldl writeFileSync (mkdirSync d) ws.

Section Run.

(** The parser the script calls on the fetched text. *)
Variable parse : jsstring -> list row.

(** The files one run writes, in order. *)
Definition written (text : jsstring) : result (list (jsstring * jsstring)) :=
  match transform (parse text) with
  | Ok st => Ok (writes st)
  | TypeError => TypeError
  end.

(** [generateTranslations] from the fetched text on: an exception in the
    loop rejects the promise before anything is written. *)
Definition generateTranslations (text : jsstring) (d : disk) : result disk :=
  match transform (parse text) with
  | Ok st => Ok (write_all (writes st) d)
  | TypeError => TypeError
  end.

End Run.

(** [translations[lang][key]], [None] when either level is missing. *)
Definition stored (st : tables) (lang key : jsstring) : option jsstring :=
  get lang (translations st) ≫= get key.

(** The [key] cell of a record is absent, empty or white space only. *)
Definition key_missing (r : row) : Prop :=
  get key_column r = None
  \/ exists k, get key_column r = Some (Str k) /\ blank k.

(** The record carries the (trimmed, non-empty) translation key [key]. *)
Definition has_key (r : row) (key : jsstring) : Prop :=
  exists k, get key_column r = Some (Str k) /\ trim k = key /\ key <> [].

(** Every cell of the record is text: no [__parsed_extra] array. *)
Definition text_row (r : list (jsstring * cell)) : Prop :=
  forall l c, (l, c) ∈ r -> exists s, c = Str s.

(** The record has a non-empty cell in the language column [lang]. *)
Definition filled (r : list (jsstring * cell)) (lang : jsstring) : Prop :=
  lang <> key_column /\ exists c, (lang, c) ∈ r /\ falsy c = false.

(** Some record with a key has a non-empty cell in column [lang]. *)
Definition contributes (rows : list row) (lang : jsstring) : Prop :=
  exists r key, r ∈ rows /\ has_key r key /\ filled r lang.

End Script.
Export Script.


(* ===================================================================== *)
(** ** Sample sheets *)
(* ===================================================================== *)

Module Examples.

Definition quoted (s : string) : jsstring := QUOTE :: js s ++ [QUOTE].

(** A text given line by line, the lines separated by LF. *)
Definition lines (l : list jsstring) : jsstring := join [LF] l.

Definition no_disk : disk := {| locales_dir := false; files := ∅ |}.

(** The end-to-end scenario: two keys, two languages, one empty cell. *)
Definition sheet : jsstring :=
  lines [js "key,en,fr"; js "hello,Hello,Bonjour"; js "bye,Bye,"].

Definition sheet_rows : list row :=
  [ [(js "key", Str (js "hello")); (js "en", Str (js "Hello"));
     (js "fr", Str (js "Bonjour"))];
    [(js "key", Str (js "bye")); (js "en", Str (js "Bye")); (js "fr", Str [])] ].

Definition sheet_tables : tables :=
  {| translations :=
       [(js "en", [(js "hello", js "Hello"); (js "bye", js "Bye")]);
        (js "fr", [(js "hello", js "Bonjour")])];
     keyMap := [(js "hello", js "hello"); (js "bye", js "bye")];
     languages := [js "en"; js "fr"] |}.

Definition sheet_files : list (jsstring * jsstring) :=
  [ (js "en.json",
     lines [js "{";
            js "  " ++ quoted "hello" ++ js ": " ++ quoted "Hello" ++ js ",";
            js "  " ++ quoted "bye" ++ js ": " ++ quoted "Bye";
            js "}"]);
    (js "fr.json",
     lines [js "{";
            js "  " ++ quoted "hello" ++ js ": " ++ quoted "Bonjour";
            js "}"]);
    (js "keys.json",
     lines [js "{";
            js "  " ++ quoted "hello" ++ js ": " ++ quoted "hello" ++ js ",";
            js "  " ++ quoted "bye" ++ js ": " ++ quoted "bye";
            js "}"]);
    (js "languages.json",
     lines [js "["; js "  " ++ quoted "en" ++ js ","; js "  " ++ quoted "fr"; js "]"]) ].

(** A language column without any filled cell. *)
Definition sheet_empty_column : jsstring :=
  lines [js "key,en,fr"; js "hello,Hello,"].

(** Language columns named like the two manifest files. *)
Definition sheet_reserved : jsstring :=
  lines [js "key,keys,languages"; js "hello,Hola,Salut"].

Definition keys_registry : jsstring :=
  lines [js "{"; js "  " ++ quoted "hello" ++ js ": " ++ quoted "hello"; js "}"].

Definition keys_translation : jsstring :=
  lines [js "{"; js "  " ++ quoted "hello" ++ js ": " ++ quoted "Hola"; js "}"].

Definition languages_list : jsstring :=
  lines [js "["; js "  " ++ quoted "keys" ++ js ","; js "  " ++ quoted "languages"; js "]"].

Definition languages_translation : jsstring :=
  lines [js "{"; js "  " ++ quoted "hello" ++ js ": " ++ quoted "Salut"; js "}"].





(** A cell with a line break inside. *)
Definition two_lines : jsstring := js "line1" ++ [CR; LF] ++ js "line2".

(** A quoted cell that holds nothing but a line feed. *)
Definition sheet_line_feed_cell : jsstring :=
  lines [js "key,en"; js "hello," ++ [QUOTE; LF; QUOTE]].

End Examples.

(* ===================================================================== *)
(** ** The request, and what a sheet fills in reading order *)
(* ===================================================================== *)

Module Fetch.

Definition CSV_URL : jsstring :=
  js "https://docs.google.com/spreadsheets/d/e/2PACX-1vTiOcjQ2wzDCWzPFyCMUYhBw72dTQ-xQp08L_VOuGVo4OnCQnBAJp6OteXXc6kKvJxMEjMe2bhQOgwZ/pub?gid=0&single=true&output=csv".

(** [String(n)] for the integer [Date.now()] returns: its decimal digits
    (the exponent form starts at 10^21, far beyond any time stamp). *)
Definition decimal (n : N) : jsstring :=
  js (NilEmpty.string_of_uint (N.to_uint n)).

(** The template literal passed to [fetch], [now] being [Date.now()]. *)
Definition request_url (now : N) : jsstring :=
  CSV_URL ++ js "&t=" ++ decimal now.

End Fetch.

Module Reading.

(** The trimmed key of a record, when the record is not skipped and its
    key cell is text. *)
Definition row_key (r : row) : option jsstring :=
  match get key_column r with
  | Some (Str k) => if bool_decide (trim k = []) then None else Some (trim k)
  | _ => None
  end.

(** The language columns of a record that hold a value, in column order. *)
Definition filled_columns (r : row) : list jsstring :=
  fst <$> List.filter
            (fun entry => negb (bool_decide (fst entry = key_column)
                                || falsy (snd entry))) r.

(** The same over a sheet, record by record; records without a key are
    skipped. *)
Definition filled_languages (rows : list row) : list jsstring :=
  flat_map (fun r => match row_key r with
                     | Some _ => filled_columns r
                     | None => []
                     end) rows.

(** The distinct members of a sequence in the order they first occur. *)
Definition first_seen (l : list jsstring) : list jsstring :=
  foldl (fun seen x => set_add x seen) [] l.

(** A property name that is not an array index. *)
Definition not_index (k : jsstring) : bool :=
  match array_index k with
  | None => true
  | Some _ => false
  end.

(** Own property names in the order an object lists them: array indices
    in ascending order, then the names that are not array indices. [low]
    is the last index passed, if any. *)
Fixpoint property_order (low : option N) (names : list jsstring) : Prop :=
  match names with
  | [] => True
  | k :: rest =>
      match array_index k with
      | Some n =>
          match low with Some m => m <= n | None => True end
          /\ property_order (Some n) rest
      | None => Forall (fun k' => not_index k' = true) rest
      end
  end.

(** Every double quote of [s] stands right after a backslash;
    [after_backslash] tells whether the code unit before [s] is one. *)
Fixpoint quotes_guarded (after_backslash : bool) (s : jsstring) : bool :=
  match s with
  | [] => true
  | c :: rest =>
      if c =? QUOTE then after_backslash && quotes_guarded false rest
      else quotes_guarded (c =? BACKSLASH) rest
  end.

(** A sheet with a line that has one field more than the header. *)
Definition sheet_surplus_field : jsstring :=
  Examples.lines [js "key,en"; js "hello,Hi,there"].

End Reading.
Export Fetch Reading.

(* ===================================================================== *)
(** ** The sheets on which objects behave as plain maps *)
(* ===================================================================== *)

Module Domain.

(** The own property names of [Object.prototype].  The objects of the
    script inherit from it, and [JSObject] keeps own properties only:
    reading [translations[lang]] for one of these names finds the
    inherited value instead of [undefined], and assigning to [__proto__]
    calls the inherited setter instead of creating a property.  The
    statements that need a property to be created are made for names
    outside this list. *)
Definition object_prototype_names : list jsstring :=
  [js "constructor"; js "__defineGetter__"; js "__defineSetter__";
   js "hasOwnProperty"; js "__lookupGetter__"; js "__lookupSetter__";
   js "isPrototypeOf"; js "propertyIsEnumerable"; js "toString";
   js "valueOf"; js "__proto__"; js "toLocaleString"].

Definition proto : jsstring := js "__proto__".

(** A language code that [translations] can only hold as an own
    property. *)
Definition own_name (name : jsstring) : bool :=
  forallb (fun n => negb (bool_decide (name = n))) object_prototype_names.

(** A language code whose file [path.join] leaves directly in the output
    directory and under its own name, and that the file system takes:
    printable ASCII without a slash, at most 250 code units (a POSIX,
    case-sensitive file system is meant). *)
Definition flat_name (name : jsstring) : bool :=
  forallb (fun c => (32 <=? c) && (c <? 127) && negb (c =? 47)) name
  && (N.of_nat (length name) <=? 250).

(** A record whose key, if it has one, is not [__proto__] and whose
    filled language columns are not named like a property of
    [Object.prototype]. *)
Definition ordinary_row (r : row) : bool :=
  match row_key r with
  | Some key => negb (bool_decide (key = proto))
                && forallb own_name (filled_columns r)
  | None => true
  end.

Definition ordinary_sheet (rows : list row) : bool := forallb ordinary_row rows.

(** Every language the sheet fills has a flat file name. *)
Definition flat_sheet (rows : list row) : bool :=
  forallb flat_name (filled_languages rows).




End Domain.
Export Domain.

(* ===================================================================== *)
(** ** Facts about strings *)
(* ===================================================================== *)

Section StringFacts.

Lemma replace_backslash_app a b :
  replace_backslash (a ++ b) = replace_backslash a ++ replace_backslash b.
Proof. apply flat_map_app. Qed.

Lemma replace_quote_app a b :
  replace_quote (a ++ b) = replace_quote a ++ replace_quote b.
Proof. apply flat_map_app. Qed.

(** The newline scan splits at any code unit that is not a line feed: a
    carriage return just before it is left alone. *)
Lemma replace_newline_split a x b :
  x <> LF ->
  replace_newline (a ++ x :: b) = replace_newline a ++ replace_newline (x :: b).
Proof.
  intros Hx.
  assert (Hboth : forall n a, (length a <= n)%nat ->
            replace_newline (a ++ x :: b)
            = replace_newline a ++ replace_newline (x :: b)).
  { clear a. induction n as [|n IH]; intros a Hlen.
    - destruct a; [reflexivity | simpl in Hlen; lia].
    - destruct a as [|c a]; [reflexivity|].
      simpl in Hlen. cbn [app replace_newline].
      destruct (c =? LF) eqn:Hc.
      + rewrite IH by lia. reflexivity.
      + destruct (c =? CR) eqn:Hr.
        * destruct a as [|d a].
          -- apply N.eqb_neq in Hx. cbn [app replace_newline].
             rewrite Hx. reflexivity.
          -- cbn [app]. simpl in Hlen. destruct (d =? LF) eqn:Hd.
             ++ rewrite IH by lia. reflexivity.
             ++ change (d :: a ++ x :: b) with ((d :: a) ++ x :: b).
                rewrite IH by (simpl; lia). reflexivity.
        * rewrite IH by lia. reflexivity. }
  apply (Hboth (length a)). lia.
Qed.

(** After the scan no line feed is left. *)
Lemma replace_newline_no_LF s : LF ∉ replace_newline s.
Proof.
  assert (Hboth : forall n s, (length s <= n)%nat -> LF ∉ replace_newline s).
  { clear s. induction n as [|n IH]; intros s Hlen.
    - destruct s; [apply not_elem_of_nil | simpl in Hlen; lia].
    - destruct s as [|c s]; [apply not_elem_of_nil|].
      simpl in Hlen. cbn [replace_newline].
      destruct (c =? LF) eqn:Hc.
      + rewrite !not_elem_of_cons. repeat split; try discriminate.
        apply IH. lia.
      + apply N.eqb_neq in Hc.
        destruct (c =? CR) eqn:Hr.
        * destruct s as [|d s].
          -- rewrite not_elem_of_cons. split; [congruence | apply not_elem_of_nil].
          -- simpl in Hlen. destruct (d =? LF) eqn:Hd.
             ++ rewrite !not_elem_of_cons. repeat split; try discriminate.
                apply IH. lia.
             ++ rewrite not_elem_of_cons. split; [congruence|].
                apply IH. simpl. lia.
        * rewrite not_elem_of_cons. split; [congruence|]. apply IH. lia. }
  apply (Hboth (length s)). lia.
Qed.

(** Without a line feed the scan changes nothing. *)
Lemma replace_newline_id s : LF ∉ s -> replace_newline s = s.
Proof.
  assert (Hboth : forall n s, (length s <= n)%nat -> LF ∉ s -> replace_newline s = s).
  { clear s. induction n as [|n IH]; intros s Hlen Hs.
    - destruct s; [reflexivity | simpl in Hlen; lia].
    - destruct s as [|c s]; [reflexivity|].
      simpl in Hlen. apply not_elem_of_cons in Hs as [Hc Hs].
      cbn [replace_newline].
      assert (Hc' : (c =? LF) = false) by (apply N.eqb_neq; congruence).
      rewrite Hc'.
      destruct (c =? CR).
      + destruct s as [|d s]; [reflexivity|].
        pose proof Hs as Hs'.
        apply not_elem_of_cons in Hs' as [Hd _].
        assert (Hd' : (d =? LF) = false) by (apply N.eqb_neq; congruence).
        rewrite Hd'. f_equal. apply IH; [simpl in *; lia | exact Hs].
      + f_equal. apply IH; [lia | exact Hs]. }
  intros Hs. apply (Hboth (length s)); [lia | exact Hs].
Qed.

Lemma replace_backslash_id s : BACKSLASH ∉ s -> replace_backslash s = s.
Proof.
  induction s as [|c s IH]; intros Hs; [reflexivity|].
  apply not_elem_of_cons in Hs as [Hc Hs].
  unfold replace_backslash in *. cbn [flat_map].
  assert (Hc' : (c =? BACKSLASH) = false) by (apply N.eqb_neq; congruence).
  rewrite Hc'. simpl. f_equal. auto.
Qed.

Lemma replace_quote_id s : QUOTE ∉ s -> replace_quote s = s.
Proof.
  induction s as [|c s IH]; intros Hs; [reflexivity|].
  apply not_elem_of_cons in Hs as [Hc Hs].
  unfold replace_quote in *. cbn [flat_map].
  assert (Hc' : (c =? QUOTE) = false) by (apply N.eqb_neq; congruence).
  rewrite Hc'. simpl. f_equal. auto.
Qed.

Lemma trimStart_blank s : blank s -> trimStart s = [].
Proof.
  induction 1 as [|c s Hc _ IH]; [reflexivity|].
  simpl. rewrite Hc. exact IH.
Qed.

Lemma trim_blank s : blank s -> trim s = [].
Proof.
  intros Hs. unfold trim, trimEnd. rewrite (trimStart_blank s Hs). reflexivity.
Qed.

(** [trimStart] removes a prefix and stops at the first code unit that is
    not white space. *)
Lemma trimStart_keeps a x r :
  is_white_space x = false ->
  exists a', trimStart (a ++ x :: r) = a' ++ x :: r.
Proof.
  intros Hx. induction a as [|c a IH].
  - exists []. simpl. rewrite Hx. reflexivity.
  - simpl. destruct (is_white_space c).
    + exact IH.
    + exists (c :: a). reflexivity.
Qed.

Lemma trimEnd_keeps l x b :
  is_white_space x = false ->
  exists b', trimEnd (l ++ x :: b) = l ++ x :: b'.
Proof.
  intros Hx. unfold trimEnd.
  rewrite rev_app_distr. cbn [rev]. rewrite <- app_assoc. cbn [app].
  destruct (trimStart_keeps (rev b) x (rev l) Hx) as [b' Hb'].
  rewrite Hb'. exists (rev b').
  rewrite rev_app_distr. cbn [rev]. rewrite rev_involutive.
  rewrite <- app_assoc. reflexivity.
Qed.

(** A run of code units that neither starts nor ends with white space
    survives [trim]. *)
Lemma trim_keeps_run x m y s :
  is_white_space x = false ->
  is_white_space y = false ->
  occurs_in (x :: m ++ [y]) s ->
  occurs_in (x :: m ++ [y]) (trim s).
Proof.
  intros Hx Hy (a & b & ->). unfold trim.
  destruct (trimStart_keeps a x ((m ++ [y]) ++ b) Hx) as [a' Ha'].
  cbn [app]. rewrite Ha'.
  replace (a' ++ x :: (m ++ [y]) ++ b) with ((a' ++ x :: m) ++ y :: b)
    by (rewrite <- !app_assoc; reflexivity).
  destruct (trimEnd_keeps (a' ++ x :: m) y b Hy) as [b' Hb'].
  rewrite Hb'. exists a', b'.
  cbn [app]. rewrite <- !app_assoc. reflexivity.
Qed.

(** What the three replacements do to a backslash followed by a quote,
    wherever it stands. *)
Lemma replacements_backslash_quote a b :
  replace_newline (replace_quote (replace_backslash (a ++ [BACKSLASH; QUOTE] ++ b)))
  = replace_newline (replace_quote (replace_backslash a))
    ++ [BACKSLASH; BACKSLASH; BACKSLASH; QUOTE]
    ++ replace_newline (replace_quote (replace_backslash b)).
Proof.
  rewrite !replace_backslash_app, !replace_quote_app.
  change (replace_quote (replace_backslash [BACKSLASH; QUOTE]))
    with ([BACKSLASH; BACKSLASH; BACKSLASH] ++ [QUOTE]).
  rewrite <- app_assoc. cbn [app].
  rewrite replace_newline_split by discriminate.
  set (rest := replace_quote (replace_backslash b)).
  change (BACKSLASH :: BACKSLASH :: BACKSLASH :: QUOTE :: rest)
    with ([BACKSLASH; BACKSLASH; BACKSLASH] ++ QUOTE :: rest).
  rewrite (replace_newline_split [BACKSLASH; BACKSLASH; BACKSLASH] QUOTE rest)
    by discriminate.
  destruct rest as [|c rest']; [reflexivity|].
  change (QUOTE :: c :: rest') with ([QUOTE] ++ c :: rest').
  cbn [replace_newline]. reflexivity.
Qed.

(** The same for a carriage return followed by a line feed. *)
Lemma replacements_CRLF a b :
  replace_newline (replace_quote (replace_backslash (a ++ [CR; LF] ++ b)))
  = replace_newline (replace_quote (replace_backslash a))
    ++ [BACKSLASH; LETTER_n]
    ++ replace_newline (replace_quote (replace_backslash b)).
Proof.
  rewrite !replace_backslash_app, !replace_quote_app.
  change (replace_quote (replace_backslash [CR; LF])) with [CR; LF].
  cbn [app].
  rewrite replace_newline_split by discriminate.
  reflexivity.
Qed.

End StringFacts.

(* ===================================================================== *)
(** ** Facts about objects *)
(* ===================================================================== *)

Section ObjectFacts.

Context {A : Type}.
Implicit Types (o : obj A) (k l : jsstring) (v : A).

Lemma get_None o k : get k o = None <-> k ∉ keys o.
Proof.
  unfold keys. induction o as [|[k' v'] o IH]; simpl.
  - split; [intros _; apply not_elem_of_nil | reflexivity].
  - rewrite not_elem_of_cons. destruct (decide (k' = k)) as [->|Hne].
    + split; [discriminate | intros [Hk _]; congruence].
    + rewrite IH. split; [intros H; split; [congruence | exact H] | intros [_ H]; exact H].
Qed.

Lemma get_Some_elem o k v : get k o = Some v -> (k, v) ∈ o.
Proof.
  induction o as [|[k' v'] o IH]; simpl; [discriminate|].
  destruct (decide (k' = k)) as [->|Hne].
  - intros [= ->]. apply elem_of_cons. left. reflexivity.
  - intros H. apply elem_of_cons. right. auto.
Qed.

Lemma get_is_Some o k : is_Some (get k o) <-> k ∈ keys o.
Proof.
  destruct (get k o) eqn:Hg.
  - split; [intros _ | intros _; eexists; reflexivity].
    apply get_Some_elem in Hg. unfold keys.
    apply (list_elem_of_fmap_2 fst) in Hg. exact Hg.
  - apply get_None in Hg. split; [intros [x Hx]; discriminate | intros; contradiction].
Qed.

(** In an object every name has one value. *)
Lemma get_NoDup o k v : NoDup (keys o) -> (k, v) ∈ o -> get k o = Some v.
Proof.
  unfold keys. induction o as [|[k' v'] o IH]; simpl; intros Hnd Hin.
  - apply elem_of_nil in Hin. contradiction.
  - apply NoDup_cons in Hnd as [Hk' Hnd].
    apply elem_of_cons in Hin as [[= -> ->]|Hin].
    + rewrite decide_True by reflexivity. reflexivity.
    + destruct (decide (k' = k)) as [->|Hne]; [|auto].
      exfalso. apply Hk'. apply (list_elem_of_fmap_2 fst) in Hin. exact Hin.
Qed.

Lemma keys_replace_value k v o : keys (replace_value k v o) = keys o.
Proof.
  unfold keys. induction o as [|[k' v'] o IH]; simpl; [reflexivity|].
  destruct (decide (k' = k)) as [->|Hne]; simpl; [reflexivity | f_equal; exact IH].
Qed.

Lemma get_replace_value k v o l :
  get l (replace_value k v o)
  = if decide (k = l) then (match get k o with Some _ => Some v | None => None end)
    else get l o.
Proof.
  induction o as [|[k' v'] o IH]; simpl.
  - destruct (decide (k = l)); reflexivity.
  - destruct (decide (k' = k)) as [->|Hne]; simpl.
    + destruct (decide (k = l)); reflexivity.
    + destruct (decide (k' = l)) as [->|Hne'].
      * rewrite decide_False by congruence. reflexivity.
      * exact IH.
Qed.

Lemma keys_add_index n k v o : keys (add_index n k v o) ≡ₚ k :: keys o.
Proof.
  unfold keys. induction o as [|[k' v'] o IH]; simpl; [reflexivity|].
  destruct (array_index k') as [m|]; [|reflexivity].
  destruct (m <? n); [|reflexivity].
  cbn [fmap list_fmap fst]. rewrite IH. apply Permutation_swap.
Qed.

Lemma get_add_index n k v o l :
  get k o = None ->
  get l (add_index n k v o) = if decide (k = l) then Some v else get l o.
Proof.
  induction o as [|[k' v'] o IH]; simpl; intros Hk.
  - reflexivity.
  - destruct (decide (k' = k)) as [->|Hne]; [discriminate|].
    destruct (array_index k') as [m|]; [|reflexivity].
    destruct (m <? n); [|reflexivity].
    simpl. destruct (decide (k' = l)) as [->|Hne'].
    + rewrite decide_False by congruence. reflexivity.
    + auto.
Qed.

Lemma get_snoc k v o l :
  get k o = None ->
  get l (o ++ [(k, v)]) = if decide (k = l) then Some v else get l o.
Proof.
  induction o as [|[k' v'] o IH]; simpl; intros Hk.
  - reflexivity.
  - destruct (decide (k' = k)) as [->|Hne]; [discriminate|].
    destruct (decide (k' = l)) as [->|Hne'].
    + rewrite decide_False by congruence. reflexivity.
    + auto.
Qed.

(** Reading after writing. *)
Lemma get_put k v o l :
  get l (put k v o) = if decide (k = l) then Some v else get l o.
Proof.
  unfold put. destruct (get k o) eqn:Hk.
  - rewrite get_replace_value, Hk. reflexivity.
  - unfold add. destruct (array_index k).
    + apply get_add_index. exact Hk.
    + apply get_snoc. exact Hk.
Qed.

Lemma get_put_eq k v o : get k (put k v o) = Some v.
Proof. rewrite get_put. apply decide_True. reflexivity. Qed.

Lemma get_put_ne k v o l : k <> l -> get l (put k v o) = get l o.
Proof. intros Hne. rewrite get_put. apply decide_False. exact Hne. Qed.

Lemma keys_put k v o :
  keys (put k v o) ≡ₚ if decide (k ∈ keys o) then keys o else k :: keys o.
Proof.
  unfold put. destruct (get k o) eqn:Hk.
  - rewrite keys_replace_value. rewrite decide_True; [reflexivity|].
    apply get_is_Some. rewrite Hk. eexists; reflexivity.
  - apply get_None in Hk. rewrite decide_False by exact Hk.
    unfold add. destruct (array_index k).
    + apply keys_add_index.
    + unfold keys. rewrite fmap_app. simpl.
      symmetry. apply Permutation_cons_append.
Qed.

Lemma elem_of_keys_put k v o l : l ∈ keys (put k v o) <-> l = k \/ l ∈ keys o.
Proof.
  rewrite keys_put. destruct (decide (k ∈ keys o)) as [Hin|Hnin].
  - split; [auto | intros [->|H]; assumption].
  - apply elem_of_cons.
Qed.

Lemma NoDup_keys_put k v o : NoDup (keys o) -> NoDup (keys (put k v o)).
Proof.
  intros Hnd. rewrite keys_put. destruct (decide (k ∈ keys o)) as [Hin|Hnin].
  - exact Hnd.
  - apply NoDup_cons. split; assumption.
Qed.

End ObjectFacts.

Lemma elem_of_set_add x s l : l ∈ set_add x s <-> l = x \/ l ∈ s.
Proof.
  unfold set_add. destruct (decide (x ∈ s)) as [Hin|Hnin].
  - split; [auto | intros [->|H]; assumption].
  - rewrite elem_of_app, list_elem_of_singleton. tauto.
Qed.

Lemma NoDup_set_add x s : NoDup s -> NoDup (set_add x s).
Proof.
  intros Hnd. unfold set_add. destruct (decide (x ∈ s)) as [Hin|Hnin].
  - exact Hnd.
  - apply NoDup_app. repeat split; [exact Hnd | | apply NoDup_singleton].
    intros y Hy Hy'. apply list_elem_of_singleton in Hy'. congruence.
Qed.

(* ===================================================================== *)
(** ** The loop body, one cell at a time *)
(* ===================================================================== *)

Section ColumnStep.

Variable rawKey : jsstring.

Lemma column_step_key st c : column_step rawKey st (key_column, c) = Ok st.
Proof. reflexivity. Qed.

Lemma column_step_empty st lang : column_step rawKey st (lang, Str []) = Ok st.
Proof.
  unfold column_step. simpl. rewrite orb_true_r. reflexivity.
Qed.

Lemma column_step_skip st lang c :
  lang = key_column \/ falsy c = true -> column_step rawKey st (lang, c) = Ok st.
Proof.
  intros [-> | Hc]; [reflexivity|].
  unfold column_step. rewrite Hc, orb_true_r. reflexivity.
Qed.

(** A non-empty text cell of a language column is stored. *)
Lemma column_step_store st lang v :
  lang <> key_column -> v <> [] ->
  exists st',
    column_step rawKey st (lang, Str v) = Ok st'
    /\ (forall l k, stored st' l k
                    = if decide (l = lang /\ k = rawKey) then Some (safeValue v)
                      else stored st l k)
    /\ (forall l, l ∈ keys (translations st')
                  <-> l = lang \/ l ∈ keys (translations st))
    /\ (NoDup (keys (translations st)) -> NoDup (keys (translations st')))
    /\ keyMap st' = keyMap st
    /\ languages st' = set_add lang (languages st).
Proof.
  intros Hlang Hv. unfold column_step.
  rewrite bool_decide_eq_false_2 by exact Hlang.
  simpl. rewrite bool_decide_eq_false_2 by exact Hv. simpl.
  eexists. split; [reflexivity|]. simpl.
  set (tr1 := match get lang (translations st) with
              | Some _ => translations st
              | None => put lang [] (translations st)
              end).
  assert (Hget1 : forall l, l <> lang -> get l tr1 = get l (translations st)).
  { intros l Hl. unfold tr1. destruct (get lang (translations st)); [reflexivity|].
    apply get_put_ne. congruence. }
  assert (Hinner : forall k, get k (default [] (get lang tr1))
                             = stored st lang k).
  { intros k. unfold tr1, stored.
    destruct (get lang (translations st)) as [i|] eqn:Hg.
    - rewrite Hg. reflexivity.
    - rewrite get_put_eq. reflexivity. }
  assert (Hkeys1 : forall l, l ∈ keys tr1 <-> l = lang \/ l ∈ keys (translations st)).
  { intros l. unfold tr1. destruct (get lang (translations st)) as [i|] eqn:Hg.
    - split; [auto | intros [->|H]; [|exact H]].
      apply get_is_Some. rewrite Hg. eexists; reflexivity.
    - apply elem_of_keys_put. }
  repeat split.
  - intros l k. unfold stored at 1. simpl. rewrite get_put.
    destruct (decide (lang = l)) as [<-|Hne].
    + simpl. rewrite get_put. destruct (decide (rawKey = k)) as [<-|Hk].
      * rewrite decide_True by (split; reflexivity). reflexivity.
      * rewrite decide_False by (intros [_ E]; congruence). apply Hinner.
    + rewrite decide_False by (intros [E _]; congruence).
      unfold stored. rewrite Hget1 by congruence. reflexivity.
  - intros H. apply elem_of_keys_put in H as [->|H]; [auto|].
    apply Hkeys1 in H. exact H.
  - intros H. apply elem_of_keys_put. destruct H as [->|H]; [auto|].
    right. apply Hkeys1. auto.
  - intros Hnd. apply NoDup_keys_put. unfold tr1.
    destruct (get lang (translations st)); [exact Hnd|].
    apply NoDup_keys_put. exact Hnd.
Qed.

(** A cell that is not text makes the body throw. *)
Lemma column_step_extra st lang l :
  lang <> key_column -> column_step rawKey st (lang, Extra l) = TypeError.
Proof.
  intros Hlang. unfold column_step.
  rewrite bool_decide_eq_false_2 by exact Hlang. reflexivity.
Qed.

End ColumnStep.

Lemma safeValue_blank v : blank v -> LF ∉ v -> safeValue v = [].
Proof.
  intros Hb Hlf. unfold safeValue.
  assert (Hne : forall c, is_white_space c = false -> c ∉ v).
  { intros c Hc Hin. unfold blank in Hb. rewrite Forall_forall in Hb.
    specialize (Hb c Hin). congruence. }
  rewrite replace_backslash_id by (apply Hne; reflexivity).
  rewrite replace_quote_id by (apply Hne; reflexivity).
  rewrite replace_newline_id by exact Hlf.
  apply trim_blank. exact Hb.
Qed.

(** What one pass of the loop body does, whenever it does not throw. *)
Lemma column_step_Ok rawKey st l c st' :
  column_step rawKey st (l, c) = Ok st' ->
  (forall l' k,
      stored st' l' k
      = if decide (l' = l /\ k = rawKey /\ l <> key_column /\ falsy c = false)
        then match c with Str s => Some (safeValue s) | Extra _ => None end
        else stored st l' k)
  /\ (forall l', l' ∈ keys (translations st')
                 <-> filled [(l, c)] l' \/ l' ∈ keys (translations st))
  /\ (NoDup (keys (translations st)) -> NoDup (keys (translations st')))
  /\ keyMap st' = keyMap st
  /\ (forall l', l' ∈ languages st'
                 <-> filled [(l, c)] l' \/ l' ∈ languages st)
  /\ (NoDup (languages st) -> NoDup (languages st')).
Proof.
  intros Hstep.
  assert (Hfilled : forall l', filled [(l, c)] l'
                               <-> l' = l /\ l <> key_column /\ falsy c = false).
  { intros l'. unfold filled. split.
    - intros (Hne & c' & Hin & Hc'). apply list_elem_of_singleton in Hin.
      injection Hin as -> ->. auto.
    - intros (-> & Hne & Hc). split; [exact Hne|].
      exists c. split; [apply list_elem_of_singleton; reflexivity | exact Hc]. }
  destruct (decide (l = key_column \/ falsy c = true)) as [Hskip|Hhit].
  - rewrite column_step_skip in Hstep by exact Hskip. injection Hstep as <-.
    assert (Hno : forall l', ~ (l' = l /\ l <> key_column /\ falsy c = false)).
    { intros l' (_ & Hne & Hc). destruct Hskip; congruence. }
    repeat split; try tauto.
    + intros l' k. rewrite decide_False; [reflexivity|].
      intros (E & _ & H). apply (Hno l'). tauto.
    + intros [H|H]; [|exact H]. apply Hfilled in H. exfalso. apply (Hno l'). exact H.
    + intros [H|H]; [|exact H]. apply Hfilled in H. exfalso. apply (Hno l'). exact H.
  - assert (Hne : l <> key_column) by tauto.
    assert (Hc : falsy c = false) by (destruct (falsy c); tauto).
    destruct c as [s|xs].
    + assert (Hs : s <> []).
      { simpl in Hc. apply bool_decide_eq_false_1 in Hc. exact Hc. }
      destruct (column_step_store rawKey st l s Hne Hs)
        as (st2 & Hst2 & Hsto & Hkeys & Hnd & Hkm & Hlangs).
      rewrite Hst2 in Hstep. injection Hstep as <-.
      repeat split.
      * intros l' k. rewrite Hsto.
        destruct (decide (l' = l /\ k = rawKey)) as [[-> ->]|Hn].
        -- rewrite decide_True by tauto. reflexivity.
        -- rewrite decide_False by tauto. reflexivity.
      * intros H. apply Hkeys in H as [->|H]; [left; apply Hfilled|]; tauto.
      * intros [H|H]; apply Hkeys; [apply Hfilled in H|]; tauto.
      * exact Hnd.
      * exact Hkm.
      * rewrite Hlangs, elem_of_set_add.
        intros [->|H]; [left; apply Hfilled|]; tauto.
      * rewrite Hlangs, elem_of_set_add.
        intros [H|H]; [apply Hfilled in H|]; tauto.
      * rewrite Hlangs. apply NoDup_set_add.
    + rewrite column_step_extra in Hstep by exact Hne. discriminate.
Qed.

Lemma text_row_cons e r : text_row (e :: r) -> text_row r.
Proof. intros H l c Hin. apply (H l c). apply elem_of_cons. auto. Qed.

Lemma filled_cons e r l :
  filled (e :: r) l <-> filled [e] l \/ filled r l.
Proof.
  unfold filled. split.
  - intros (Hne & c & Hin & Hc). apply elem_of_cons in Hin as [Hin|Hin].
    + left. split; [exact Hne|]. exists c.
      split; [apply list_elem_of_singleton; exact Hin | exact Hc].
    + right. split; [exact Hne|]. exists c. auto.
  - intros [(Hne & c & Hin & Hc)|(Hne & c & Hin & Hc)];
      (split; [exact Hne|]); exists c; (split; [|exact Hc]); apply elem_of_cons.
    + left. apply list_elem_of_singleton in Hin. exact Hin.
    + right. exact Hin.
Qed.

Lemma filled_nil l : ~ filled [] l.
Proof. intros (_ & c & Hin & _). apply elem_of_nil in Hin. exact Hin. Qed.

(* ===================================================================== *)
(** ** The loops *)
(* ===================================================================== *)

Section Loops.

Lemma for_of_app {A S} (body : S -> A -> result S) l1 l2 st :
  for_of body (l1 ++ l2) st
  = match for_of body l1 st with
    | Ok st' => for_of body l2 st'
    | TypeError => TypeError
    end.
Proof.
  revert st. induction l1 as [|x l1 IH]; intros st; simpl; [reflexivity|].
  destruct (body st x); [apply IH | reflexivity].
Qed.

(** On a record of text cells the inner loop runs to its end. *)
Lemma columns_total rawKey entries st :
  text_row entries -> exists st', for_of (column_step rawKey) entries st = Ok st'.
Proof.
  revert st. induction entries as [|[l c] entries IH]; intros st Htext;
    cbn [for_of].
  - eexists; reflexivity.
  - destruct (Htext l c) as [s ->]; [apply elem_of_cons; auto|].
    destruct (decide (l = key_column \/ falsy (Str s) = true)) as [Hskip|Hhit].
    + rewrite column_step_skip by exact Hskip.
      apply IH. eapply text_row_cons; exact Htext.
    + assert (Hne : l <> key_column) by tauto.
      assert (Hs : s <> []).
      { intros ->. apply Hhit. right. reflexivity. }
      destruct (column_step_store rawKey st l s Hne Hs) as (st2 & -> & _).
      apply IH. eapply text_row_cons; exact Htext.
Qed.

(** The effect of the inner loop on the three containers. *)
Lemma columns_Ok rawKey entries st st' :
  for_of (column_step rawKey) entries st = Ok st' ->
  (forall l k, k <> rawKey \/ ~ filled entries l -> stored st' l k = stored st l k)
  /\ (forall l, l ∈ keys (translations st')
                <-> filled entries l \/ l ∈ keys (translations st))
  /\ (NoDup (keys (translations st)) -> NoDup (keys (translations st')))
  /\ keyMap st' = keyMap st
  /\ (forall l, l ∈ languages st' <-> filled entries l \/ l ∈ languages st)
  /\ (NoDup (languages st) -> NoDup (languages st')).
Proof.
  revert st. induction entries as [|[l c] entries IH]; intros st; cbn [for_of].
  - intros [= <-]. pose proof filled_nil as Hnil.
    repeat split; try tauto.
    + intros [H|H]; [exfalso; eapply Hnil; exact H | exact H].
    + intros [H|H]; [exfalso; eapply Hnil; exact H | exact H].
  - destruct (column_step rawKey st (l, c)) as [st1|] eqn:Hstep; [|discriminate].
    intros Hrest.
    destruct (column_step_Ok _ _ _ _ _ Hstep) as (Hs1 & Hk1 & Hn1 & Hm1 & Hl1 & Hd1).
    destruct (IH _ Hrest) as (Hs2 & Hk2 & Hn2 & Hm2 & Hl2 & Hd2).
    repeat split.
    + intros l' k Hcond. rewrite Hs2, Hs1.
      * apply decide_False. intros (-> & -> & Hne & Hc).
        destruct Hcond as [Hk|Hnf]; [congruence|].
        apply Hnf. apply filled_cons. left. split; [exact Hne|].
        exists c. split; [apply list_elem_of_singleton; reflexivity | exact Hc].
      * destruct Hcond as [Hk|Hnf]; [auto|]. right. intros Hf. apply Hnf.
        apply filled_cons. auto.
    + intros H. apply Hk2 in H as [H|H].
      * left. apply filled_cons. auto.
      * apply Hk1 in H as [H|H]; [left; apply filled_cons|]; auto.
    + intros [H|H]; apply Hk2.
      * apply filled_cons in H as [H|H]; [right; apply Hk1|]; auto.
      * right. apply Hk1. auto.
    + auto.
    + congruence.
    + intros H. apply Hl2 in H as [H|H].
      * left. apply filled_cons. auto.
      * apply Hl1 in H as [H|H]; [left; apply filled_cons|]; auto.
    + intros [H|H]; apply Hl2.
      * apply filled_cons in H as [H|H]; [right; apply Hl1|]; auto.
      * right. apply Hl1. auto.
    + auto.
Qed.


End Loops.

Section Rows.

Lemma has_key_unique r k1 k2 : has_key r k1 -> has_key r k2 -> k1 = k2.
Proof.
  intros (a & Ha & <- & _) (b & Hb & <- & _). congruence.
Qed.

(** A record without a usable key is skipped. *)
Lemma row_step_missing st r : key_missing r -> row_step st r = Ok st.
Proof.
  unfold row_step. intros [-> | (k & -> & Hk)]; [reflexivity|].
  rewrite (trim_blank k Hk). reflexivity.
Qed.

(** A record with a key registers it and runs the inner loop. *)
Lemma row_step_has_key st r key :
  has_key r key ->
  row_step st r
  = for_of (column_step key) r
      {| translations := translations st;
         keyMap := put key key (keyMap st);
         languages := languages st |}.
Proof.
  intros (k & Hk & <- & Hne). unfold row_step. rewrite Hk.
  rewrite bool_decide_eq_false_2 by exact Hne. reflexivity.
Qed.

Lemma row_step_no_key st r st' :
  (forall key, ~ has_key r key) -> row_step st r = Ok st' -> st' = st.
Proof.
  intros Hno. unfold row_step.
  destruct (get key_column r) as [[k|xs]|] eqn:Hk.
  - destruct (decide (trim k = [])) as [E|Hne].
    + rewrite E. simpl. congruence.
    + exfalso. apply (Hno (trim k)). exists k. auto.
  - discriminate.
  - congruence.
Qed.

Lemma has_key_dec r : (exists key, has_key r key) \/ (forall key, ~ has_key r key).
Proof.
  destruct (get key_column r) as [[k|xs]|] eqn:Hk.
  - destruct (decide (trim k = [])) as [E|Hne].
    + right. intros key (k' & Hk' & <- & Hne). congruence.
    + left. exists (trim k), k. auto.
  - right. intros key (k' & Hk' & _). congruence.
  - right. intros key (k' & Hk' & _). congruence.
Qed.

Lemma row_total st r : text_row r -> exists st', row_step st r = Ok st'.
Proof.
  intros Htext. destruct (has_key_dec r) as [[key Hkey]|Hno].
  - rewrite (row_step_has_key st r key Hkey). apply columns_total. exact Htext.
  - unfold row_step. destruct (get key_column r) as [[k|xs]|] eqn:Hk.
    + destruct (decide (trim k = [])) as [E|Hne].
      * rewrite E. simpl. eexists; reflexivity.
      * exfalso. apply (Hno (trim k)). exists k. auto.
    + apply get_Some_elem in Hk. destruct (Htext _ _ Hk) as [s Hs]. discriminate.
    + eexists; reflexivity.
Qed.

(** The effect of one record on the three containers. *)
Lemma row_Ok st r st' :
  row_step st r = Ok st' ->
  (forall l k, ~ has_key r k \/ ~ filled r l -> stored st' l k = stored st l k)
  /\ (forall l, l ∈ keys (translations st')
                <-> ((exists key, has_key r key) /\ filled r l)
                    \/ l ∈ keys (translations st))
  /\ (NoDup (keys (translations st)) -> NoDup (keys (translations st')))
  /\ (forall l, l ∈ languages st'
                <-> ((exists key, has_key r key) /\ filled r l)
                    \/ l ∈ languages st)
  /\ (NoDup (languages st) -> NoDup (languages st'))
  /\ (forall l, l ∈ keys (keyMap st') <-> has_key r l \/ l ∈ keys (keyMap st)).
Proof.
  intros Hstep. destruct (has_key_dec r) as [[key Hkey]|Hno].
  - rewrite (row_step_has_key st r key Hkey) in Hstep.
    destruct (columns_Ok _ _ _ _ Hstep) as (Hs & Hk & Hn & Hm & Hl & Hd).
    simpl in *. repeat split.
    + intros l k Hcond. rewrite Hs; [reflexivity|].
      destruct Hcond as [Hnk|Hnf]; [left|right; exact Hnf].
      intros ->. apply Hnk. exact Hkey.
    + intros H. apply Hk in H. destruct H; [left; split; [eauto|]|]; auto.
    + intros [[_ H]|H]; apply Hk; auto.
    + exact Hn.
    + intros H. apply Hl in H. destruct H; [left; split; [eauto|]|]; auto.
    + intros [[_ H]|H]; apply Hl; auto.
    + exact Hd.
    + rewrite Hm. intros H. apply elem_of_keys_put in H as [->|H]; auto.
    + rewrite Hm. intros [H|H]; apply elem_of_keys_put.
      * left. eapply has_key_unique; eassumption.
      * right. exact H.
  - apply (row_step_no_key _ _ _ Hno) in Hstep. subst st'.
    repeat split; try tauto.
    + intros [[[key Hkey] _]|H]; [exfalso; eapply Hno; exact Hkey | exact H].
    + intros [[[key Hkey] _]|H]; [exfalso; eapply Hno; exact Hkey | exact H].
    + intros [Hkey|H]; [exfalso; eapply Hno; exact Hkey | exact H].
Qed.

Lemma contributes_cons r rows l :
  contributes (r :: rows) l
  <-> ((exists key, has_key r key) /\ filled r l) \/ contributes rows l.
Proof.
  unfold contributes. split.
  - intros (r' & key & Hin & Hkey & Hf). apply elem_of_cons in Hin as [->|Hin].
    + left. eauto.
    + right. eauto.
  - intros [[[key Hkey] Hf]|(r' & key & Hin & Hkey & Hf)].
    + exists r, key. split; [apply elem_of_cons; auto | auto].
    + exists r', key. split; [apply elem_of_cons; auto | auto].
Qed.

Lemma contributes_nil l : ~ contributes [] l.
Proof. intros (r & key & Hin & _). apply elem_of_nil in Hin. exact Hin. Qed.

(** On records of text cells the whole pass runs to its end. *)
Lemma transform_total st rows :
  Forall text_row rows -> exists st', transform_from st rows = Ok st'.
Proof.
  unfold transform_from. intros Hrows. revert st.
  induction Hrows as [|r rows Hr _ IH]; intros st; cbn [for_of].
  - eexists; reflexivity.
  - destruct (row_total st r Hr) as [st1 ->]. apply IH.
Qed.

(** The effect of the whole pass on the three containers. *)
Lemma transform_Ok st rows st' :
  transform_from st rows = Ok st' ->
  (forall l k, (forall r, r ∈ rows -> ~ has_key r k \/ ~ filled r l) ->
               stored st' l k = stored st l k)
  /\ (forall l, l ∈ keys (translations st')
                <-> contributes rows l \/ l ∈ keys (translations st))
  /\ (NoDup (keys (translations st)) -> NoDup (keys (translations st')))
  /\ (forall l, l ∈ languages st'
                <-> contributes rows l \/ l ∈ languages st)
  /\ (NoDup (languages st) -> NoDup (languages st'))
  /\ (forall l, l ∈ keys (keyMap st')
                <-> (exists r, r ∈ rows /\ has_key r l) \/ l ∈ keys (keyMap st)).
Proof.
  unfold transform_from. revert st.
  induction rows as [|r rows IH]; intros st; cbn [for_of].
  - intros [= <-]. pose proof contributes_nil as Hnil.
    repeat split; try tauto.
    + intros [H|H]; [exfalso; eapply Hnil; exact H | exact H].
    + intros [H|H]; [exfalso; eapply Hnil; exact H | exact H].
    + intros [(r & Hin & _)|H]; [apply elem_of_nil in Hin; contradiction | exact H].
  - destruct (row_step st r) as [st1|] eqn:Hstep; [|discriminate].
    intros Hrest.
    destruct (row_Ok _ _ _ Hstep) as (Hs1 & Hk1 & Hn1 & Hl1 & Hd1 & Hm1).
    destruct (IH _ Hrest) as (Hs2 & Hk2 & Hn2 & Hl2 & Hd2 & Hm2).
    repeat split.
    + intros l k Hcond. rewrite Hs2, Hs1; [reflexivity | |].
      * apply Hcond. apply elem_of_cons. auto.
      * intros r' Hr'. apply Hcond. apply elem_of_cons. auto.
    + intros H. apply Hk2 in H as [H|H].
      * left. apply contributes_cons. auto.
      * apply Hk1 in H as [H|H]; [left; apply contributes_cons|]; auto.
    + intros [H|H]; apply Hk2.
      * apply contributes_cons in H as [H|H]; [right; apply Hk1|]; auto.
      * right. apply Hk1. auto.
    + auto.
    + intros H. apply Hl2 in H as [H|H].
      * left. apply contributes_cons. auto.
      * apply Hl1 in H as [H|H]; [left; apply contributes_cons|]; auto.
    + intros [H|H]; apply Hl2.
      * apply contributes_cons in H as [H|H]; [right; apply Hl1|]; auto.
      * right. apply Hl1. auto.
    + auto.
    + intros H. apply Hm2 in H as [(r' & Hin & Hkey)|H].
      * left. exists r'. split; [apply elem_of_cons; auto | exact Hkey].
      * apply Hm1 in H as [H|H]; [left; exists r; split; [apply elem_of_cons|]|]; auto.
    + intros [(r' & Hin & Hkey)|H]; apply Hm2.
      * apply elem_of_cons in Hin as [->|Hin]; [right; apply Hm1|]; eauto.
      * right. apply Hm1. auto.
Qed.


End Rows.

(* ===================================================================== *)
(** ** The writer *)
(* ===================================================================== *)

Section Writer.

Implicit Types (ws : list (jsstring * jsstring)) (d : disk) (name : jsstring).

Lemma write_all_snoc ws w d :
  write_all (ws ++ [w]) d = writeFileSync (write_all ws d) w.
Proof. unfold write_all. apply foldl_snoc. Qed.

Lemma locales_dir_write_all ws d : locales_dir (write_all ws d) = true.
Proof.
  induction ws as [|w ws IH] using rev_ind; [reflexivity|].
  rewrite write_all_snoc. exact IH.
Qed.

(** A name that is not written keeps what the disk had. *)
Lemma files_not_written ws d name :
  name ∉ ws.*1 -> files (write_all ws d) !! name = files d !! name.
Proof.
  induction ws as [|w ws IH] using rev_ind; intros Hname; [reflexivity|].
  rewrite write_all_snoc. simpl.
  rewrite fmap_app, not_elem_of_app in Hname. destruct Hname as [Hws Hw].
  rewrite lookup_insert_ne.
  - apply IH. exact Hws.
  - intros E. apply Hw. simpl. apply list_elem_of_singleton. congruence.
Qed.



(** The two manifest files are written last, in this order. *)
Lemma manifests_last st d :
  files (write_all (writes st) d) !! keys_json
    = Some (stringify_object (keyMap st))
  /\ files (write_all (writes st) d) !! languages_json
    = Some (stringify_array (languages st)).
Proof.
  unfold writes.
  change [(keys_json, stringify_object (keyMap st));
          (languages_json, stringify_array (languages st))]
    with ([(keys_json, stringify_object (keyMap st))]
          ++ [(languages_json, stringify_array (languages st))]).
  rewrite app_assoc, !write_all_snoc. simpl. split.
  - rewrite lookup_insert_ne by discriminate. apply lookup_insert_eq.
  - apply lookup_insert_eq.
Qed.

Lemma json_file_inj : Inj (=) (=) json_file.
Proof. intros a b H. unfold json_file in H. apply app_inv_tail in H. exact H. Qed.

End Writer.

(* ===================================================================== *)
(** ** The properties of the specification *)
(* ===================================================================== *)

Import Examples.

Lemma elem_of_trimStart x s : x ∈ trimStart s -> x ∈ s.
Proof.
  induction s as [|c s IH]; simpl; [auto|].
  destruct (is_white_space c); [|auto].
  intros H. apply elem_of_cons. right. auto.
Qed.

Lemma elem_of_trim x s : x ∈ trim s -> x ∈ s.
Proof.
  unfold trim, trimEnd. intros H.
  apply list_elem_of_In, in_rev, list_elem_of_In, elem_of_trimStart in H.
  apply list_elem_of_In, in_rev, list_elem_of_In in H.
  apply elem_of_trimStart. exact H.
Qed.

Lemma transform_sheet : transform sheet_rows = Ok sheet_tables.
Proof. vm_compute. reflexivity. Qed.

Lemma writes_sheet : writes sheet_tables = sheet_files.
Proof. vm_compute. reflexivity. Qed.





(** C5. A record whose [key] cell is absent, empty or white space only
    contributes nothing: the loop body leaves the translation table, the
    key registry and the language set as they were, and the whole pass
    gives the same result as on the sheet without that record. *)
Theorem blank_key_record_dropped (r : row) :
  key_missing r ->
  (forall st, row_step st r = Ok st)
  /\ (forall st before after,
         transform_from st (before ++ r :: after)
         = transform_from st (before ++ after)).
Proof.
  intros Hr. split; [intros st; apply row_step_missing; exact Hr|].
  intros st before after. unfold transform_from. rewrite !for_of_app.
  destruct (for_of row_step before st) as [st1|]; [|reflexivity].
  cbn [for_of]. rewrite (row_step_missing st1 r Hr). reflexivity.
Qed.

Lemma blank_key_record_dropped_witness :
  (forall st, row_step st [(js "key", Str (js "  ")); (js "en", Str (js "Hello"))] = Ok st)
  /\ (forall st, row_step st [(js "en", Str (js "Hello"))] = Ok st).
Proof.
  split.
  - apply (blank_key_record_dropped
             [(js "key", Str (js "  ")); (js "en", Str (js "Hello"))]).
    right. exists (js "  "). split; [reflexivity|].
    repeat constructor.
  - apply (blank_key_record_dropped [(js "en", Str (js "Hello"))]).
    left. reflexivity.
Defined.

(** C6. An empty cell creates nothing: for a record with a key, the loop
    body on an empty cell leaves the translation table and the language
    set as they were; and when every record carrying a key has an empty
    cell in a language column, that key is absent from that language's
    map in the result (absent, not mapped to the empty string), and a
    column with empty cells only is not in the language set. *)
Theorem empty_cell_no_entry :
  (forall rawKey st lang, column_step rawKey st (lang, Str []) = Ok st)
  /\ (forall rows st lang key,
         transform rows = Ok st ->
         (forall r c, r ∈ rows -> has_key r key -> (lang, c) ∈ r -> c = Str []) ->
         stored st lang key = None)
  /\ (forall rows st lang,
         transform rows = Ok st ->
         (forall r c, r ∈ rows -> (lang, c) ∈ r -> c = Str []) ->
         (lang ∉ languages st) /\ (lang ∉ keys (translations st))).
Proof.
  split; [intros; apply column_step_empty|]. split.
  - intros rows st lang key Hrun Hempty.
    destruct (transform_Ok _ _ _ Hrun) as (Hs & _).
    rewrite Hs; [reflexivity|].
    intros r Hr. destruct (has_key_dec r) as [[key' Hkey']|Hno].
    + destruct (decide (key' = key)) as [->|Hne].
      * right. intros (_ & c & Hc & Hf).
        rewrite (Hempty r c Hr Hkey' Hc) in Hf. discriminate.
      * left. intros Hkey. apply Hne. eapply has_key_unique; eassumption.
    + left. apply Hno.
  - intros rows st lang Hrun Hempty.
    destruct (transform_Ok _ _ _ Hrun) as (_ & Hk & _ & Hl & _).
    assert (Hno : ~ contributes rows lang).
    { intros (r & key & Hr & _ & _ & c & Hc & Hf).
      rewrite (Hempty r c Hr Hc) in Hf. discriminate. }
    split.
    + intros H. apply Hl in H as [H|H]; [auto|].
      apply elem_of_nil in H. exact H.
    + intros H. apply Hk in H as [H|H]; [auto|].
      apply elem_of_nil in H. exact H.
Qed.

Lemma empty_cell_no_entry_witness :
  stored sheet_tables (js "fr") (js "bye") = None.
Proof.
  apply (proj1 (proj2 empty_cell_no_entry) sheet_rows).
  - vm_compute. reflexivity.
  - intros r c Hr (k & Hk & Htrim & _) Hc.
    unfold sheet_rows in Hr.
    apply elem_of_cons in Hr as [->|Hr].
    + vm_compute in Hk. injection Hk as <-. vm_compute in Htrim. discriminate.
    + apply list_elem_of_singleton in Hr. subst r.
      repeat (apply elem_of_cons in Hc as [Hc|Hc]; [try discriminate|]).
      * injection Hc as ->. reflexivity.
      * apply elem_of_nil in Hc. contradiction.
Defined.

(** C7 (the claim as stated fails). The stored form of line1 CR LF line2
    does not have 13 code units. *)
Lemma two_lines_not_13 :
  length (safeValue two_lines) <> 13%nat.
Proof. vm_compute. discriminate. Qed.

(** C7 (amended). An embedded CR+LF becomes the two code units backslash,
    n: the value line1 CR LF line2 is stored as the 12 code units of
    [line1\nline2], with no raw line feed or carriage return; wherever a
    CR+LF stands in a value the replacements put backslash-n in its place,
    and no stored value contains a raw line feed. *)
Theorem crlf_becomes_backslash_n :
  safeValue two_lines = js "line1" ++ [BACKSLASH; LETTER_n] ++ js "line2"
  /\ length (safeValue two_lines) = 12%nat
  /\ (LF ∉ safeValue two_lines)
  /\ (CR ∉ safeValue two_lines)
  /\ (forall a b,
         safeValue (a ++ [CR; LF] ++ b)
         = trim (replace_newline (replace_quote (replace_backslash a))
                 ++ [BACKSLASH; LETTER_n]
                 ++ replace_newline (replace_quote (replace_backslash b))))
  /\ (forall value, LF ∉ safeValue value).
Proof.
  assert (Hno : forall value, LF ∉ safeValue value).
  { intros value H. unfold safeValue in H. apply elem_of_trim in H.
    exact (replace_newline_no_LF _ H). }
  split; [vm_compute; reflexivity|]. split; [vm_compute; reflexivity|].
  split; [apply Hno|]. split.
  - intros H. apply list_elem_of_In in H. vm_compute in H.
    repeat (destruct H as [H|H]; [discriminate|]). exact H.
  - split; [|exact Hno].
    intros a b. unfold safeValue. rewrite replacements_CRLF. reflexivity.
Qed.

(** C10 (the claim as stated fails). A cell that holds a single line feed
    is not empty and is white space only, yet what is stored for it is
    backslash-n, not the empty string. *)
Lemma line_feed_cell_not_empty :
  Papa.parse sheet_line_feed_cell
  = [[(js "key", Str (js "hello")); (js "en", Str [LF])]]
  /\ [LF] <> [] /\ blank [LF]
  /\ exists st',
       column_step (js "hello") empty_tables (js "en", Str [LF]) = Ok st'
       /\ stored st' (js "en") (js "hello") = Some [BACKSLASH; LETTER_n]
       /\ stored st' (js "en") (js "hello") <> Some [].
Proof.
  split; [vm_compute; reflexivity|].
  split; [discriminate|]. split; [repeat constructor|].
  eexists. split; [vm_compute; reflexivity|].
  split; [vm_compute; reflexivity | vm_compute; discriminate].
Qed.



Lemma no_key_or_not_filled r key lang :
  (has_key r key -> ~ filled r lang) -> ~ has_key r key \/ ~ filled r lang.
Proof.
  intros H. destruct (has_key_dec r) as [[key' Hkey']|Hno].
  - destruct (decide (key' = key)) as [->|Hne]; [auto|].
    left. intros Hkey. apply Hne. eapply has_key_unique; eassumption.
  - left. apply Hno.
Qed.



Lemma language_writes_names st :
  (language_writes st).*1 = json_file <$> keys (translations st).
Proof.
  unfold language_writes, keys. rewrite <- !list_fmap_compose. reflexivity.
Qed.

Lemma writes_names st :
  (writes st).*1
  = (json_file <$> keys (translations st)) ++ [keys_json; languages_json].
Proof.
  unfold writes. rewrite fmap_app, language_writes_names. reflexivity.
Qed.

Lemma NoDup_empty_tables :
  NoDup (keys (translations empty_tables)) /\ NoDup (languages empty_tables).
Proof. split; apply NoDup_nil_2. Qed.

(** C3 (the claim as stated fails). The header of the sheet
    [key,en,fr / hello,Hello,] names the language [fr], but the only cell
    of that column is empty and no [fr.json] is written. *)
Lemma empty_column_no_file :
  Papa.header sheet_empty_column = [js "key"; js "en"; js "fr"]
  /\ js "fr" <> key_column
  /\ exists ws,
       written Papa.parse sheet_empty_column = Ok ws
       /\ ws.*1 = [js "en.json"; js "keys.json"; js "languages.json"]
       /\ json_file (js "fr") ∉ ws.*1.
Proof.
  split; [vm_compute; reflexivity|]. split; [discriminate|].
  eexists. split; [vm_compute; reflexivity|]. split; [vm_compute; reflexivity|].
  intros H. apply list_elem_of_In in H. vm_compute in H.
  repeat (destruct H as [H|H]; [discriminate|]). exact H.
Qed.



(** C4 (the claim as stated fails). With language columns named [keys]
    and [languages], each with a filled cell, [keys.json] holds the key
    registry and [languages.json] the list of languages when the run is
    over, not the translation maps of these two columns. *)
Lemma manifests_survive_reserved_columns :
  Papa.header sheet_reserved = [js "key"; js "keys"; js "languages"]
  /\ exists d',
       generateTranslations Papa.parse sheet_reserved no_disk = Ok d'
       /\ files d' !! js "keys.json" = Some keys_registry
       /\ files d' !! js "keys.json" <> Some keys_translation
       /\ files d' !! js "languages.json" = Some languages_list
       /\ files d' !! js "languages.json" <> Some languages_translation.
Proof.
  split; [vm_compute; reflexivity|].
  eexists. split; [vm_compute; reflexivity|].
  repeat split; vm_compute; congruence.
Qed.






(* ===================================================================== *)
(** ** Further properties of the script *)
(* ===================================================================== *)

Section Trimmed.

Lemma trimStart_idem s : trimStart (trimStart s) = trimStart s.
Proof.
  induction s as [|c s IH]; [reflexivity|].
  simpl. destruct (is_white_space c) eqn:Hc; [exact IH|].
  simpl. rewrite Hc. reflexivity.
Qed.

(** What [trimStart] returns is empty or starts with a code unit that is
    not white space. *)
Lemma trimStart_head s :
  trimStart s = []
  \/ exists x r, trimStart s = x :: r /\ is_white_space x = false.
Proof.
  induction s as [|c s IH]; [left; reflexivity|].
  simpl. destruct (is_white_space c) eqn:Hc; [exact IH|].
  right. exists c, s. auto.
Qed.

Lemma trim_idem s : trim (trim s) = trim s.
Proof.
  unfold trim. destruct (trimStart_head s) as [-> | (x & r & -> & Hx)].
  - reflexivity.
  - unfold trimEnd at 2. cbn [rev].
    destruct (trimStart_keeps (rev r) x [] Hx) as [a' Ha']. rewrite Ha'.
    rewrite rev_app_distr. cbn [rev app].
    cbn [trimStart]. rewrite Hx.
    unfold trimEnd. cbn [rev]. rewrite rev_involutive.
    rewrite <- Ha', trimStart_idem. reflexivity.
Qed.

Lemma safeValue_trimmed value : trim (safeValue value) = safeValue value.
Proof. unfold safeValue. apply trim_idem. Qed.

Lemma safeValue_no_LF value : LF ∉ safeValue value.
Proof.
  intros H. unfold safeValue in H. apply elem_of_trim in H.
  exact (replace_newline_no_LF _ H).
Qed.

End Trimmed.

(* --------------------------------------------------------------------- *)
(** *** Cells that are not text *)

Lemma columns_extra_throws rawKey entries st l xs :
  (l, Extra xs) ∈ entries -> l <> key_column ->
  for_of (column_step rawKey) entries st = TypeError.
Proof.
  intros Hin Hl. revert st.
  induction entries as [|e entries IH]; intros st.
  - apply elem_of_nil in Hin. contradiction.
  - cbn [for_of]. apply elem_of_cons in Hin as [<-|Hin].
    + rewrite column_step_extra by exact Hl. reflexivity.
    + destruct (column_step rawKey st e); [apply IH; exact Hin | reflexivity].
Qed.

Lemma for_of_throws {A S} (body : S -> A -> result S) (l : list A) x st :
  x ∈ l -> (forall st', body st' x = TypeError) -> for_of body l st = TypeError.
Proof.
  intros Hin Hx. revert st. induction l as [|y l IH]; intros st.
  - apply elem_of_nil in Hin. contradiction.
  - cbn [for_of]. apply elem_of_cons in Hin as [<-|Hin].
    + rewrite Hx. reflexivity.
    + destruct (body st y); [apply IH; exact Hin | reflexivity].
Qed.

Lemma row_step_throws st r :
  (exists xs, get key_column r = Some (Extra xs))
  \/ (exists key l xs, has_key r key /\ (l, Extra xs) ∈ r /\ l <> key_column) ->
  row_step st r = TypeError.
Proof.
  intros [[xs Hk] | (key & l & xs & Hkey & Hin & Hl)].
  - unfold row_step. rewrite Hk. reflexivity.
  - rewrite (row_step_has_key st r key Hkey).
    eapply columns_extra_throws; eassumption.
Qed.

(** X1. A record that has a key and a cell that is not text (the array
    the parser stores for a line with more fields than the header), or
    whose key cell itself is not text, makes the loop throw: the run
    fails as a whole and writes no file, wherever the record stands in
    the sheet. *)
Theorem non_text_cell_aborts (parse : jsstring -> list row) text d r :
  r ∈ parse text ->
  (exists xs, get key_column r = Some (Extra xs))
  \/ (exists key l xs, has_key r key /\ (l, Extra xs) ∈ r /\ l <> key_column) ->
  transform (parse text) = TypeError
  /\ written parse text = TypeError
  /\ generateTranslations parse text d = TypeError.
Proof.
  intros Hin Hr.
  assert (Hrun : transform (parse text) = TypeError).
  { unfold transform, transform_from. apply (for_of_throws row_step _ r); [exact Hin|].
    intros st'. apply row_step_throws. exact Hr. }
  unfold written, generateTranslations. rewrite Hrun. auto.
Qed.

Lemma non_text_cell_aborts_witness :
  transform (Papa.parse sheet_surplus_field) = TypeError
  /\ written Papa.parse sheet_surplus_field = TypeError
  /\ generateTranslations Papa.parse sheet_surplus_field Examples.no_disk = TypeError.
Proof.
  apply (non_text_cell_aborts Papa.parse sheet_surplus_field Examples.no_disk
           [(js "key", Str (js "hello")); (js "en", Str (js "Hi"));
            (Papa.parsed_extra, Extra [js "there"])]).
  - apply list_elem_of_In. vm_compute. left. reflexivity.
  - right. exists (js "hello"), Papa.parsed_extra, [js "there"].
    split; [|split].
    + exists (js "hello"). repeat split; discriminate.
    + apply elem_of_cons. right. apply elem_of_cons. right.
      apply elem_of_cons. left. reflexivity.
    + discriminate.
Defined.

(* --------------------------------------------------------------------- *)
(** *** The key registry *)

Lemma row_key_has_key r key : row_key r = Some key <-> has_key r key.
Proof.
  unfold row_key, has_key. split.
  - destruct (get key_column r) as [[k|xs]|]; try discriminate.
    destruct (decide (trim k = [])) as [E|Hne].
    + rewrite bool_decide_eq_true_2 by exact E. discriminate.
    + rewrite bool_decide_eq_false_2 by exact Hne. intros [= <-].
      exists k. auto.
  - intros (k & -> & <- & Hne).
    rewrite bool_decide_eq_false_2 by exact Hne. reflexivity.
Qed.

Lemma row_key_None r : row_key r = None -> forall key, ~ has_key r key.
Proof.
  intros Hnone key Hkey. apply row_key_has_key in Hkey. congruence.
Qed.

(** What a record does to the registry. *)
Lemma row_step_keyMap st r st' :
  row_step st r = Ok st' ->
  keyMap st' = match row_key r with
               | Some key => put key key (keyMap st)
               | None => keyMap st
               end.
Proof.
  intros Hstep. destruct (row_key r) as [key|] eqn:Hkey.
  - apply row_key_has_key in Hkey.
    rewrite (row_step_has_key st r key Hkey) in Hstep.
    destruct (columns_Ok _ _ _ _ Hstep) as (_ & _ & _ & Hm & _). exact Hm.
  - apply (row_step_no_key st r st' (row_key_None r Hkey)) in Hstep.
    subst st'. reflexivity.
Qed.

Lemma transform_keyMap st rows st' :
  transform_from st rows = Ok st' ->
  keyMap st' = foldl (fun o key => put key key o) (keyMap st) (omap row_key rows).
Proof.
  unfold transform_from. revert st.
  induction rows as [|r rows IH]; intros st; cbn [for_of].
  - intros [= <-]. reflexivity.
  - destruct (row_step st r) as [st1|] eqn:Hstep; [|discriminate].
    intros Hrest. rewrite (IH _ Hrest), (row_step_keyMap _ _ _ Hstep).
    cbn [omap list_omap]. destruct (row_key r); reflexivity.
Qed.

Lemma registry_invariant (o : obj jsstring) ks :
  NoDup (keys o) -> (forall k v, get k o = Some v -> v = k) ->
  NoDup (keys (foldl (fun o key => put key key o) o ks))
  /\ (forall k v, get k (foldl (fun o key => put key key o) o ks) = Some v -> v = k).
Proof.
  revert o. induction ks as [|key ks IH]; intros o Hnd Hself; [auto|].
  cbn [foldl]. apply IH.
  - apply NoDup_keys_put. exact Hnd.
  - intros k v. rewrite get_put. destruct (decide (key = k)) as [->|Hne].
    + congruence.
    + apply Hself.
Qed.



(* --------------------------------------------------------------------- *)
(** *** Where the stored values come from *)

Lemma for_of_invariant {A S} (body : S -> A -> result S) (P : S -> Prop) l :
  (forall st x st', body st x = Ok st' -> P st -> P st') ->
  forall st st', for_of body l st = Ok st' -> P st -> P st'.
Proof.
  intros Hbody. induction l as [|x l IH]; intros st st'; cbn [for_of].
  - intros [= <-]. auto.
  - destruct (body st x) as [st1|] eqn:Hx; [|discriminate].
    intros Hrest HP. eapply IH; [exact Hrest|]. eapply Hbody; eassumption.
Qed.

Lemma columns_provenance rawKey entries st st' l k v :
  for_of (column_step rawKey) entries st = Ok st' ->
  stored st' l k = Some v ->
  stored st l k = Some v
  \/ (k = rawKey /\ l <> key_column
      /\ exists raw, (l, Str raw) ∈ entries /\ raw <> [] /\ v = safeValue raw).
Proof.
  revert st. induction entries as [|[l0 c] entries IH]; intros st; cbn [for_of].
  - intros [= <-]. auto.
  - destruct (column_step rawKey st (l0, c)) as [st1|] eqn:Hstep; [|discriminate].
    intros Hrest Hv. destruct (IH _ Hrest Hv) as [Hold | (-> & Hl & raw & Hin & Hraw & ->)].
    + destruct (column_step_Ok _ _ _ _ _ Hstep) as (Hs & _).
      rewrite Hs in Hold.
      destruct (decide (l = l0 /\ k = rawKey /\ l0 <> key_column /\ falsy c = false))
        as [(-> & -> & Hl & Hc)|_]; [|auto].
      destruct c as [s|xs]; [|discriminate].
      right. repeat split; [exact Hl|]. exists s. split; [apply elem_of_cons; auto|].
      split; [|congruence].
      simpl in Hc. apply bool_decide_eq_false_1 in Hc. exact Hc.
    + right. repeat split; [exact Hl|]. exists raw.
      split; [apply elem_of_cons; auto | auto].
Qed.

Lemma transform_provenance st rows st' l k v :
  transform_from st rows = Ok st' ->
  stored st' l k = Some v ->
  stored st l k = Some v
  \/ exists r raw, r ∈ rows /\ has_key r k /\ l <> key_column
                   /\ (l, Str raw) ∈ r /\ raw <> [] /\ v = safeValue raw.
Proof.
  unfold transform_from. revert st.
  induction rows as [|r rows IH]; intros st; cbn [for_of].
  - intros [= <-]. auto.
  - destruct (row_step st r) as [st1|] eqn:Hstep; [|discriminate].
    intros Hrest Hv.
    destruct (IH _ Hrest Hv) as [Hold | (r' & raw & Hin & H)].
    + destruct (has_key_dec r) as [[key Hkey]|Hno].
      * rewrite (row_step_has_key st r key Hkey) in Hstep.
        destruct (columns_provenance _ _ _ _ _ _ _ Hstep Hold)
          as [H | (-> & Hl & raw & Hin & Hraw & ->)]; [left; exact H|].
        right. exists r, raw. split; [apply elem_of_cons; auto | auto].
      * apply (row_step_no_key _ _ _ Hno) in Hstep. subst st1. auto.
    + right. exists r', raw. split; [apply elem_of_cons; auto | exact H].
Qed.

(** X3. Nothing is invented: every value in the translation table is the
    escaped form of a non-empty text cell that stands, in the column of
    that language, on a record whose trimmed key is the key it is stored
    under. *)
Theorem stored_value_has_a_cell rows st l k v :
  transform rows = Ok st ->
  stored st l k = Some v ->
  exists r raw,
    r ∈ rows /\ has_key r k /\ l <> key_column
    /\ (l, Str raw) ∈ r /\ raw <> [] /\ v = safeValue raw.
Proof.
  intros Hrun Hv.
  destruct (transform_provenance _ _ _ _ _ _ Hrun Hv) as [Hold|H]; [|exact H].
  discriminate.
Qed.

Lemma stored_value_has_a_cell_witness :
  exists r raw,
    r ∈ Examples.sheet_rows /\ has_key r (js "hello") /\ js "fr" <> key_column
    /\ (js "fr", Str raw) ∈ r /\ raw <> [] /\ js "Bonjour" = safeValue raw.
Proof.
  apply (stored_value_has_a_cell Examples.sheet_rows Examples.sheet_tables).
  - vm_compute. reflexivity.
  - vm_compute. reflexivity.
Defined.

(** X4. The form of what is stored: every key of every language map is
    non-empty and has no white space at either end, and every value has
    no white space at either end and no raw line feed. *)
Theorem stored_entries_are_trimmed rows st l k v :
  transform rows = Ok st ->
  stored st l k = Some v ->
  k <> [] /\ trim k = k /\ trim v = v /\ (LF ∉ v).
Proof.
  intros Hrun Hv.
  destruct (transform_provenance _ _ _ _ _ _ Hrun Hv)
    as [Hold | (r & raw & _ & (k0 & _ & <- & Hne) & _ & _ & _ & ->)];
    [discriminate|].
  repeat split.
  - exact Hne.
  - apply trim_idem.
  - apply safeValue_trimmed.
  - apply safeValue_no_LF.
Qed.

Lemma stored_entries_are_trimmed_witness :
  js "hello" <> [] /\ trim (js "hello") = js "hello"
  /\ trim (js "Bonjour") = js "Bonjour" /\ (LF ∉ js "Bonjour").
Proof.
  apply (stored_entries_are_trimmed Examples.sheet_rows Examples.sheet_tables (js "fr")).
  - vm_compute. reflexivity.
  - vm_compute. reflexivity.
Defined.

(* --------------------------------------------------------------------- *)
(** *** How the three containers fit together *)

Lemma column_step_keeps_entries rawKey st e st' :
  column_step rawKey st e = Ok st' ->
  (forall l, l ∈ keys (translations st) -> exists k v, stored st l k = Some v) ->
  forall l, l ∈ keys (translations st') -> exists k v, stored st' l k = Some v.
Proof.
  destruct e as [l0 c]. intros Hstep Hinv l Hl.
  destruct (column_step_Ok _ _ _ _ _ Hstep) as (Hs & Hk & _).
  assert (Hhit : l0 <> key_column -> falsy c = false -> exists s, c = Str s).
  { intros Hne Hc. destruct c as [s|xs]; [eauto|].
    rewrite column_step_extra in Hstep by exact Hne. discriminate. }
  apply Hk in Hl as [(Hne & c' & Hin & Hc')|Hold].
  - apply list_elem_of_singleton in Hin. injection Hin as -> ->.
    destruct (Hhit Hne Hc') as [s ->].
    exists rawKey, (safeValue s). rewrite Hs. apply decide_True. auto.
  - destruct (Hinv l Hold) as (k & v & Hv).
    destruct (decide (l = l0 /\ k = rawKey /\ l0 <> key_column /\ falsy c = false))
      as [(-> & -> & Hne & Hc)|Hn].
    + destruct (Hhit Hne Hc) as [s ->].
      exists rawKey, (safeValue s). rewrite Hs. apply decide_True. auto.
    + exists k, v. rewrite Hs, decide_False by exact Hn. exact Hv.
Qed.

Lemma row_step_keeps_entries st r st' :
  row_step st r = Ok st' ->
  (forall l, l ∈ keys (translations st) -> exists k v, stored st l k = Some v) ->
  forall l, l ∈ keys (translations st') -> exists k v, stored st' l k = Some v.
Proof.
  intros Hstep Hinv. destruct (has_key_dec r) as [[key Hkey]|Hno].
  - rewrite (row_step_has_key st r key Hkey) in Hstep.
    refine (for_of_invariant (column_step key)
              (fun st => forall l, l ∈ keys (translations st) ->
                                   exists k v, stored st l k = Some v)
              r _ _ st' Hstep Hinv).
    intros st0 e st1. apply column_step_keeps_entries.
  - apply (row_step_no_key _ _ _ Hno) in Hstep. subst st'. exact Hinv.
Qed.

Lemma transform_keeps_entries rows st :
  transform rows = Ok st ->
  forall l, l ∈ keys (translations st) -> exists k v, stored st l k = Some v.
Proof.
  unfold transform, transform_from. intros Hrun.
  refine (for_of_invariant row_step
            (fun st => forall l, l ∈ keys (translations st) ->
                                 exists k v, stored st l k = Some v)
            rows _ _ st Hrun _).
  - intros st0 r st1. apply row_step_keeps_entries.
  - intros l Hl. apply elem_of_nil in Hl. contradiction.
Qed.



(* --------------------------------------------------------------------- *)
(** *** The writer and the files already there *)

(** When every name is written once, a file holds what was written to
    it. *)
Lemma files_written_once (ws : list (jsstring * jsstring)) d name contents :
  NoDup ws.*1 -> (name, contents) ∈ ws ->
  files (write_all ws d) !! name = Some contents.
Proof.
  induction ws as [|w ws IH] using rev_ind; intros Hnd Hin.
  - apply elem_of_nil in Hin. contradiction.
  - rewrite write_all_snoc. simpl.
    rewrite fmap_app in Hnd. apply NoDup_app in Hnd as (Hnd & Hfresh & _).
    apply elem_of_app in Hin as [Hin|Hin].
    + rewrite lookup_insert_ne.
      * apply IH; assumption.
      * intros E. apply (Hfresh name).
        -- apply (list_elem_of_fmap_2 fst) in Hin. exact Hin.
        -- simpl. apply list_elem_of_singleton. congruence.
    + apply list_elem_of_singleton in Hin. subst w. apply lookup_insert_eq.
Qed.





(* --------------------------------------------------------------------- *)
(** *** The order of languages and keys *)

Lemma column_step_languages rawKey st l c st' :
  column_step rawKey st (l, c) = Ok st' ->
  languages st'
  = if negb (bool_decide (l = key_column) || falsy c)
    then set_add l (languages st) else languages st.
Proof.
  intros Hstep.
  destruct (bool_decide (l = key_column) || falsy c) eqn:Hskip; cbn [negb].
  - unfold column_step in Hstep. rewrite Hskip in Hstep. congruence.
  - apply orb_false_iff in Hskip as [Hl Hc].
    apply bool_decide_eq_false_1 in Hl.
    destruct c as [s|xs].
    + simpl in Hc. apply bool_decide_eq_false_1 in Hc.
      destruct (column_step_store rawKey st l s Hl Hc) as (st2 & Hst2 & H).
      rewrite Hst2 in Hstep. injection Hstep as <-. apply H.
    + rewrite column_step_extra in Hstep by exact Hl. discriminate.
Qed.

Lemma columns_languages rawKey entries st st' :
  for_of (column_step rawKey) entries st = Ok st' ->
  languages st'
  = foldl (fun seen x => set_add x seen) (languages st) (filled_columns entries).
Proof.
  unfold filled_columns. revert st.
  induction entries as [|[l c] entries IH]; intros st; cbn [for_of].
  - intros [= <-]. reflexivity.
  - destruct (column_step rawKey st (l, c)) as [st1|] eqn:Hstep; [|discriminate].
    intros Hrest. rewrite (IH _ Hrest), (column_step_languages _ _ _ _ _ Hstep).
    cbn [List.filter fst snd].
    destruct (negb (bool_decide (l = key_column) || falsy c)); reflexivity.
Qed.

Lemma transform_languages st rows st' :
  transform_from st rows = Ok st' ->
  languages st'
  = foldl (fun seen x => set_add x seen) (languages st) (filled_languages rows).
Proof.
  unfold transform_from, filled_languages. revert st.
  induction rows as [|r rows IH]; intros st; cbn [for_of].
  - intros [= <-]. reflexivity.
  - destruct (row_step st r) as [st1|] eqn:Hstep; [|discriminate].
    intros Hrest. rewrite (IH _ Hrest). cbn [flat_map]. rewrite foldl_app.
    f_equal. destruct (row_key r) as [key|] eqn:Hkey.
    + apply row_key_has_key in Hkey.
      rewrite (row_step_has_key st r key Hkey) in Hstep.
      apply (columns_languages _ _ _ _ Hstep).
    + apply (row_step_no_key st r st1 (row_key_None r Hkey)) in Hstep.
      subst st1. reflexivity.
Qed.

(** X8. The order of [languages.json]: the language set lists the
    language codes in the order in which their first non-empty cell is
    met, reading the records with a key from top to bottom and each
    record from left to right. *)
Theorem languages_in_first_seen_order rows st :
  transform rows = Ok st ->
  languages st = first_seen (filled_languages rows).
Proof.
  intros Hrun. apply (transform_languages _ _ _ Hrun).
Qed.

Lemma languages_in_first_seen_order_witness :
  [js "en"; js "fr"] = first_seen [js "en"; js "fr"; js "en"].
Proof.
  apply (languages_in_first_seen_order Examples.sheet_rows Examples.sheet_tables).
  vm_compute. reflexivity.
Defined.

Section PropertyOrder.

Context {A : Type}.
Implicit Types (o : obj A) (k : jsstring) (v : A).

Lemma keys_snoc o k v : keys (o ++ [(k, v)]) = keys o ++ [k].
Proof. unfold keys. rewrite fmap_app. reflexivity. Qed.

(** A new name that is not an array index goes to the end. *)
Lemma keys_put_not_index k v o :
  not_index k = true -> keys (put k v o) = set_add k (keys o).
Proof.
  unfold not_index, put, set_add, add. intros Hk.
  destruct (array_index k) eqn:Hidx; [discriminate|].
  destruct (get k o) eqn:Hget.
  - rewrite keys_replace_value, decide_True; [reflexivity|].
    apply get_is_Some. rewrite Hget. eexists; reflexivity.
  - rewrite decide_False by (apply get_None; exact Hget). apply keys_snoc.
Qed.

Lemma filter_keys_add_index n k v o :
  not_index k = false ->
  List.filter not_index (keys (add_index n k v o)) = List.filter not_index (keys o).
Proof.
  intros Hk. unfold keys. induction o as [|[k' v'] o IH]; cbn [add_index].
  - cbn. rewrite Hk. reflexivity.
  - assert (Hhead : List.filter not_index (fst <$> (k, v) :: (k', v') :: o)
                    = List.filter not_index (fst <$> (k', v') :: o)).
    { cbn. rewrite Hk. reflexivity. }
    destruct (array_index k') as [m|]; [|exact Hhead].
    destruct (m <? n); [|exact Hhead].
    cbn. cbn in IH. rewrite IH. reflexivity.
Qed.

(** Writing an array index leaves the other names where they are. *)
Lemma filter_keys_put_index k v o :
  not_index k = false ->
  List.filter not_index (keys (put k v o)) = List.filter not_index (keys o).
Proof.
  intros Hk. unfold put. destruct (get k o).
  - rewrite keys_replace_value. reflexivity.
  - unfold add. unfold not_index in Hk.
    destruct (array_index k) as [n|] eqn:Hidx; [|discriminate].
    apply filter_keys_add_index. unfold not_index. rewrite Hidx. reflexivity.
Qed.

Lemma property_order_snoc low names k :
  not_index k = true ->
  property_order low names -> property_order low (names ++ [k]).
Proof.
  intros Hk. revert low. induction names as [|k0 names IH]; intros low; cbn.
  - unfold not_index in Hk. destruct (array_index k); [discriminate|].
    intros _. apply Forall_nil_2.
  - destruct (array_index k0) as [n|].
    + intros [Hlow Hrest]. split; [exact Hlow | apply IH; exact Hrest].
    + intros Hall. apply Forall_app. split; [exact Hall|].
      apply Forall_singleton. exact Hk.
Qed.

Lemma property_order_add_index low n k v o :
  array_index k = Some n ->
  match low with Some m => m <= n | None => True end ->
  property_order low (keys o) ->
  property_order low (keys (add_index n k v o)).
Proof.
  intros Hk. unfold keys. revert low.
  induction o as [|[k' v'] o IH]; intros low Hlow; cbn [add_index].
  - cbn. rewrite Hk. auto.
  - cbn [fmap list_fmap fst property_order].
    destruct (array_index k') as [m|] eqn:Hk'.
    + intros [Hm Hrest]. destruct (m <? n) eqn:Hlt.
      * cbn [fmap list_fmap fst property_order]. rewrite Hk'.
        split; [exact Hm|]. apply IH; [|exact Hrest].
        apply N.ltb_lt in Hlt. lia.
      * cbn [fmap list_fmap fst property_order]. rewrite Hk, Hk'.
        apply N.ltb_ge in Hlt. auto.
    + intros Hall. cbn [fmap list_fmap fst property_order]. rewrite Hk, Hk'.
      auto.
Qed.

(** [o[k] = v] keeps the property order. *)
Lemma property_order_put k v o :
  property_order None (keys o) -> property_order None (keys (put k v o)).
Proof.
  intros Ho. unfold put. destruct (get k o).
  - rewrite keys_replace_value. exact Ho.
  - unfold add. destruct (array_index k) as [n|] eqn:Hk.
    + apply property_order_add_index; [exact Hk | exact I | exact Ho].
    + rewrite keys_snoc. apply property_order_snoc; [|exact Ho].
      unfold not_index. rewrite Hk. reflexivity.
Qed.

End PropertyOrder.

Lemma filter_set_add k ks :
  not_index k = true ->
  List.filter not_index (set_add k ks) = set_add k (List.filter not_index ks).
Proof.
  intros Hk. unfold set_add.
  destruct (decide (k ∈ ks)) as [Hin|Hnin].
  - rewrite decide_True; [reflexivity|].
    apply list_elem_of_In, filter_In. split; [apply list_elem_of_In; exact Hin | exact Hk].
  - rewrite decide_False.
    + rewrite List.filter_app. cbn. rewrite Hk. reflexivity.
    + intros Hin. apply Hnin. apply list_elem_of_In in Hin.
      apply filter_In in Hin as [Hin _]. apply list_elem_of_In. exact Hin.
Qed.

Lemma registry_order (o : obj jsstring) ks :
  property_order None (keys o) ->
  property_order None (keys (foldl (fun o key => put key key o) o ks))
  /\ List.filter not_index (keys (foldl (fun o key => put key key o) o ks))
     = foldl (fun seen x => set_add x seen) (List.filter not_index (keys o))
         (List.filter not_index ks).
Proof.
  revert o. induction ks as [|key ks IH]; intros o Ho; [auto|].
  cbn [foldl List.filter].
  destruct (IH (put key key o) (property_order_put key key o Ho)) as [H1 H2].
  split; [exact H1|]. rewrite H2.
  destruct (not_index key) eqn:Hkey.
  - cbn [foldl]. rewrite keys_put_not_index, filter_set_add by exact Hkey.
    reflexivity.
  - rewrite filter_keys_put_index by exact Hkey. reflexivity.
Qed.



(* --------------------------------------------------------------------- *)
(** *** More on the escaping *)

Section Escaping.

Lemma quotes_guarded_replace_quote b s : quotes_guarded b (replace_quote s) = true.
Proof.
  unfold replace_quote. revert b. induction s as [|c s IH]; intros b; [reflexivity|].
  cbn [flat_map]. destruct (c =? QUOTE) eqn:Hc.
  - cbn. apply IH.
  - cbn [app quotes_guarded]. rewrite Hc. apply IH.
Qed.

Lemma quotes_guarded_replace_newline s :
  forall b, quotes_guarded b s = true -> quotes_guarded b (replace_newline s) = true.
Proof.
  assert (Hboth : forall n s, (length s <= n)%nat -> forall b,
            quotes_guarded b s = true ->
            quotes_guarded b (replace_newline s) = true).
  { clear s. induction n as [|n IH]; intros s Hlen b.
    - destruct s; [auto | simpl in Hlen; lia].
    - destruct s as [|c s]; [auto|]. simpl in Hlen.
      cbn [replace_newline]. destruct (c =? LF) eqn:Hlf.
      + apply N.eqb_eq in Hlf. subst c. cbn. apply IH. lia.
      + destruct (c =? CR) eqn:Hcr.
        * apply N.eqb_eq in Hcr. subst c. destruct s as [|d s]; [auto|].
          simpl in Hlen. destruct (d =? LF) eqn:Hd.
          -- apply N.eqb_eq in Hd. subst d. cbn. apply IH. lia.
          -- change (quotes_guarded b (CR :: d :: s))
               with (quotes_guarded false (d :: s)).
             change (quotes_guarded b (CR :: replace_newline (d :: s)))
               with (quotes_guarded false (replace_newline (d :: s))).
             apply IH. simpl. lia.
        * cbn [quotes_guarded]. destruct (c =? QUOTE).
          -- intros H. apply andb_true_iff in H as [-> H]. apply IH; [lia | exact H].
          -- apply IH. lia. }
  apply (Hboth (length s)). lia.
Qed.

Lemma quotes_guarded_trimStart s :
  quotes_guarded false s = true -> quotes_guarded false (trimStart s) = true.
Proof.
  induction s as [|c s IH]; [auto|].
  cbn [trimStart]. destruct (is_white_space c) eqn:Hc; [|auto].
  cbn [quotes_guarded]. destruct (c =? QUOTE) eqn:Hq; [discriminate|].
  destruct (c =? BACKSLASH) eqn:Hb; [|exact IH].
  apply N.eqb_eq in Hb. subst c. discriminate.
Qed.

Lemma quotes_guarded_prefix s t :
  forall b, quotes_guarded b (s ++ t) = true -> quotes_guarded b s = true.
Proof.
  induction s as [|c s IH]; intros b; [reflexivity|].
  cbn [app quotes_guarded]. destruct (c =? QUOTE).
  - intros H. apply andb_true_iff in H as [-> H]. simpl. eapply IH. exact H.
  - apply IH.
Qed.

(** [trimStart] keeps a suffix, [trimEnd] a prefix. *)
Lemma trimStart_suffix s : exists d, s = d ++ trimStart s.
Proof.
  induction s as [|c s [d Hd]]; [exists []; reflexivity|].
  cbn [trimStart]. destruct (is_white_space c).
  - exists (c :: d). cbn [app]. f_equal. exact Hd.
  - exists []. reflexivity.
Qed.

Lemma trimEnd_prefix s : exists t, s = trimEnd s ++ t.
Proof.
  unfold trimEnd. destruct (trimStart_suffix (rev s)) as [d Hd].
  exists (rev d). rewrite <- rev_app_distr, <- Hd, rev_involutive. reflexivity.
Qed.

Lemma quotes_guarded_safeValue value : quotes_guarded false (safeValue value) = true.
Proof.
  unfold safeValue, trim.
  set (s := replace_newline (replace_quote (replace_backslash value))).
  assert (Hs : quotes_guarded false s = true).
  { apply quotes_guarded_replace_newline, quotes_guarded_replace_quote. }
  apply quotes_guarded_trimStart in Hs.
  destruct (trimEnd_prefix (trimStart s)) as [t Ht].
  rewrite Ht in Hs. eapply quotes_guarded_prefix. exact Hs.
Qed.

(** X10. Safe for quotes: in every value of the translation table each
    double quote stands right after a backslash (and no value starts
    with a double quote). *)
Theorem stored_quotes_are_escaped rows st l k v :
  transform rows = Ok st ->
  stored st l k = Some v ->
  quotes_guarded false v = true.
Proof.
  intros Hrun Hv.
  destruct (transform_provenance _ _ _ _ _ _ Hrun Hv)
    as [Hold | (r & raw & _ & _ & _ & _ & _ & ->)]; [discriminate|].
  apply quotes_guarded_safeValue.
Qed.

Lemma stored_quotes_are_escaped_witness :
  quotes_guarded false (js "Bonjour") = true.
Proof.
  apply (stored_quotes_are_escaped Examples.sheet_rows Examples.sheet_tables
           (js "fr") (js "hello")).
  - vm_compute. reflexivity.
  - vm_compute. reflexivity.
Defined.

(** X11. Ordinary text is stored as it is: a cell without backslash,
    double quote or line feed and without white space at either end is
    its own escaped form. *)
Theorem plain_value_stored_verbatim value :
  BACKSLASH ∉ value -> QUOTE ∉ value -> LF ∉ value -> trim value = value ->
  safeValue value = value.
Proof.
  intros Hb Hq Hlf Htrim. unfold safeValue.
  rewrite replace_backslash_id, replace_quote_id, replace_newline_id; assumption.
Qed.

Lemma plain_value_stored_verbatim_witness :
  safeValue (js "Hello, world") = js "Hello, world".
Proof.
  apply plain_value_stored_verbatim.
  - intros H. apply list_elem_of_In in H. vm_compute in H. intuition discriminate.
  - intros H. apply list_elem_of_In in H. vm_compute in H. intuition discriminate.
  - intros H. apply list_elem_of_In in H. vm_compute in H. intuition discriminate.
  - vm_compute. reflexivity.
Defined.

End Escaping.

Section EmptyValue.

Lemma elem_of_replace_backslash c s : c ∈ s -> c ∈ replace_backslash s.
Proof.
  unfold replace_backslash. intros Hin.
  apply list_elem_of_In, in_flat_map. exists c.
  split; [apply list_elem_of_In; exact Hin|].
  destruct (c =? BACKSLASH) eqn:Hc.
  - apply N.eqb_eq in Hc. subst c. left. reflexivity.
  - left. reflexivity.
Qed.

Lemma elem_of_replace_quote c s : c ∈ s -> c ∈ replace_quote s.
Proof.
  unfold replace_quote. intros Hin.
  apply list_elem_of_In, in_flat_map. exists c.
  split; [apply list_elem_of_In; exact Hin|].
  destruct (c =? QUOTE) eqn:Hc.
  - apply N.eqb_eq in Hc. subst c. right. left. reflexivity.
  - left. reflexivity.
Qed.

Lemma replace_newline_LF s :
  replace_newline (LF :: s) = [BACKSLASH; LETTER_n] ++ replace_newline s.
Proof. reflexivity. Qed.

Lemma replace_newline_CRLF s :
  replace_newline (CR :: LF :: s) = [BACKSLASH; LETTER_n] ++ replace_newline s.
Proof. reflexivity. Qed.

Lemma replace_newline_CR d s :
  d <> LF -> replace_newline (CR :: d :: s) = [CR] ++ replace_newline (d :: s).
Proof.
  intros Hd. apply N.eqb_neq in Hd.
  change (replace_newline (CR :: d :: s))
    with (if d =? LF then BACKSLASH :: LETTER_n :: replace_newline s
          else CR :: replace_newline (d :: s)).
  rewrite Hd. reflexivity.
Qed.

Lemma replace_newline_other x s :
  x <> LF -> x <> CR -> replace_newline (x :: s) = [x] ++ replace_newline s.
Proof.
  intros Hlf Hcr. apply N.eqb_neq in Hlf. apply N.eqb_neq in Hcr.
  cbn [replace_newline]. rewrite Hlf, Hcr. reflexivity.
Qed.

(** The newline scan keeps every code unit but the line breaks it
    replaces, and leaves a backslash for each of them. *)
Lemma elem_of_replace_newline c s :
  c ∈ s ->
  (c = LF /\ BACKSLASH ∈ replace_newline s)
  \/ (c = CR /\ (CR ∈ replace_newline s \/ BACKSLASH ∈ replace_newline s))
  \/ c ∈ replace_newline s.
Proof.
  assert (Htail : forall whole pre t,
            whole = pre ++ replace_newline t ->
            ((c = LF /\ BACKSLASH ∈ replace_newline t)
             \/ (c = CR /\ (CR ∈ replace_newline t \/ BACKSLASH ∈ replace_newline t))
             \/ c ∈ replace_newline t) ->
            (c = LF /\ BACKSLASH ∈ whole)
            \/ (c = CR /\ (CR ∈ whole \/ BACKSLASH ∈ whole))
            \/ c ∈ whole).
  { intros whole pre t -> [[-> H]|[[-> [H|H]]|H]].
    - left. split; [reflexivity|]. apply elem_of_app. auto.
    - right. left. split; [reflexivity|]. left. apply elem_of_app. auto.
    - right. left. split; [reflexivity|]. right. apply elem_of_app. auto.
    - right. right. apply elem_of_app. auto. }
  assert (Hboth : forall n s, (length s <= n)%nat -> c ∈ s ->
            (c = LF /\ BACKSLASH ∈ replace_newline s)
            \/ (c = CR /\ (CR ∈ replace_newline s \/ BACKSLASH ∈ replace_newline s))
            \/ c ∈ replace_newline s).
  { clear s. induction n as [|n IH]; intros s Hlen Hin.
    - destruct s; [apply elem_of_nil in Hin; contradiction | simpl in Hlen; lia].
    - destruct s as [|x s]; [apply elem_of_nil in Hin; contradiction|].
      simpl in Hlen.
      destruct (decide (x = LF)) as [->|Hlf].
      + rewrite replace_newline_LF.
        apply elem_of_cons in Hin as [->|Hin].
        * left. split; [reflexivity|]. apply elem_of_cons. auto.
        * eapply Htail; [reflexivity|]. apply IH; [lia | exact Hin].
      + destruct (decide (x = CR)) as [->|Hcr].
        * destruct s as [|d s].
          -- apply elem_of_cons in Hin as [->|Hin].
             ++ right. left. split; [reflexivity|]. left. apply elem_of_cons. auto.
             ++ apply elem_of_nil in Hin. contradiction.
          -- simpl in Hlen. destruct (decide (d = LF)) as [->|Hd].
             ++ rewrite replace_newline_CRLF.
                apply elem_of_cons in Hin as [->|Hin].
                ** right. left. split; [reflexivity|]. right. apply elem_of_cons. auto.
                ** apply elem_of_cons in Hin as [->|Hin].
                   --- left. split; [reflexivity|]. apply elem_of_cons. auto.
                   --- eapply Htail; [reflexivity|]. apply IH; [lia | exact Hin].
             ++ rewrite replace_newline_CR by exact Hd.
                apply elem_of_cons in Hin as [->|Hin].
                ** right. left. split; [reflexivity|]. left. apply elem_of_cons. auto.
                ** eapply Htail; [reflexivity|]. apply IH; [simpl; lia | exact Hin].
        * rewrite replace_newline_other by assumption.
          apply elem_of_cons in Hin as [->|Hin].
          -- right. right. apply elem_of_cons. auto.
          -- eapply Htail; [reflexivity|]. apply IH; [lia | exact Hin]. }
  apply (Hboth (length s)). lia.
Qed.

Lemma trimStart_nil_blank s : trimStart s = [] -> blank s.
Proof.
  induction s as [|c s IH]; [intros _; apply Forall_nil_2|].
  cbn [trimStart]. destruct (is_white_space c) eqn:Hc; [|discriminate].
  intros H. apply Forall_cons. split; [exact Hc | apply IH; exact H].
Qed.

Lemma trim_nil_blank s : trim s = [] -> blank s.
Proof.
  unfold trim, trimEnd. intros H.
  assert (Hrev : trimStart (rev (trimStart s)) = []).
  { rewrite <- (rev_involutive (trimStart (rev (trimStart s)))), H. reflexivity. }
  apply trimStart_nil_blank in Hrev.
  destruct (trimStart_head s) as [Hnil | (x & r & Hx & Hws)].
  - apply trimStart_nil_blank. exact Hnil.
  - exfalso. rewrite Hx in Hrev. unfold blank in Hrev.
    rewrite Forall_forall in Hrev.
    assert (Hin : x ∈ rev (x :: r)).
    { apply list_elem_of_In, in_rev. rewrite rev_involutive. left. reflexivity. }
    specialize (Hrev x Hin). congruence.
Qed.

(** X12. The stored value is the empty string exactly when the cell is
    made of white space only and holds no line feed. *)
Theorem empty_value_iff_blank_cell value :
  safeValue value = [] <-> blank value /\ (LF ∉ value).
Proof.
  split; [|intros [Hb Hlf]; apply safeValue_blank; assumption].
  unfold safeValue. intros H. apply trim_nil_blank in H.
  unfold blank in *. rewrite Forall_forall in H.
  assert (Hall : forall c, c ∈ value ->
            is_white_space c = true /\ c <> LF).
  { intros c Hc.
    apply elem_of_replace_backslash, elem_of_replace_quote in Hc.
    destruct (elem_of_replace_newline _ _ Hc) as [[-> Hb]|[[-> [Hb|Hb]]|Hb]].
    - specialize (H _ Hb). discriminate.
    - split; [reflexivity | discriminate].
    - specialize (H _ Hb). discriminate.
    - split; [apply H; exact Hb|]. intros ->.
      exact (replace_newline_no_LF _ Hb). }
  split.
  - apply Forall_forall. intros c Hc. apply Hall. exact Hc.
  - intros Hlf. apply (Hall LF Hlf). reflexivity.
Qed.

End EmptyValue.

Lemma empty_value_iff_blank_cell_witness :
  safeValue (js "   ") = [] /\ safeValue [LF] <> [].
Proof.
  split.
  - apply (proj2 (empty_value_iff_blank_cell (js "   "))). split.
    + repeat constructor.
    + intros H. apply list_elem_of_In in H. vm_compute in H. intuition discriminate.
  - intros H. apply (proj1 (empty_value_iff_blank_cell [LF])) in H.
    destruct H as [_ H]. apply H. apply elem_of_cons. left. reflexivity.
Defined.



(* --------------------------------------------------------------------- *)
(** *** Rows added at the end of the sheet *)

Lemma set_add_prefix x s : s `prefix_of` set_add x s.
Proof.
  unfold set_add. destruct (decide (x ∈ s)); [reflexivity|].
  apply prefix_app_r. reflexivity.
Qed.

Lemma first_seen_prefix s xs :
  s `prefix_of` foldl (fun seen x => set_add x seen) s xs.
Proof.
  revert s. induction xs as [|x xs IH]; intros s; [reflexivity|].
  cbn [foldl]. etransitivity; [apply (set_add_prefix x) | apply IH].
Qed.

(** X14. Records added at the end of a sheet only add: the language set
    of the shorter sheet is a prefix of the new one, every key of the
    registry stays, and an entry of the translation table changes only
    if an added record with that key fills that language; otherwise it
    keeps its value. *)
Theorem appended_rows_only_add rows more st st' :
  transform rows = Ok st ->
  transform (rows ++ more) = Ok st' ->
  languages st `prefix_of` languages st'
  /\ (forall k, k ∈ keys (keyMap st) -> k ∈ keys (keyMap st'))
  /\ (forall l, l ∈ keys (translations st) -> l ∈ keys (translations st'))
  /\ (forall l k,
         (forall r, r ∈ more -> has_key r k -> ~ filled r l) ->
         stored st' l k = stored st l k).
Proof.
  unfold transform, transform_from. intros Hrows Hall.
  rewrite for_of_app, Hrows in Hall.
  destruct (transform_Ok _ _ _ Hall) as (Hs & Hk & _ & _ & _ & Hm).
  repeat split.
  - rewrite (transform_languages _ _ _ Hall). apply first_seen_prefix.
  - intros k Hin. apply Hm. auto.
  - intros l Hin. apply Hk. auto.
  - intros l k Hmore. apply Hs. intros r Hr.
    apply no_key_or_not_filled. apply Hmore. exact Hr.
Qed.

Lemma appended_rows_only_add_witness :
  [js "en"] `prefix_of` [js "en"; js "fr"]
  /\ (forall k, k ∈ [js "hello"] -> k ∈ [js "hello"; js "bye"]).
Proof.
  pose proof (appended_rows_only_add
                [[(js "key", Str (js "hello")); (js "en", Str (js "Hello"))]]
                [[(js "key", Str (js "bye")); (js "fr", Str (js "Salut"))]]
                {| translations := [(js "en", [(js "hello", js "Hello")])];
                   keyMap := [(js "hello", js "hello")];
                   languages := [js "en"] |}
                {| translations := [(js "en", [(js "hello", js "Hello")]);
                                    (js "fr", [(js "bye", js "Salut")])];
                   keyMap := [(js "hello", js "hello"); (js "bye", js "bye")];
                   languages := [js "en"; js "fr"] |}
                ltac:(vm_compute; reflexivity) ltac:(vm_compute; reflexivity))
    as (H1 & H2 & _).
  split; [exact H1 | exact H2].
Defined.

(* --------------------------------------------------------------------- *)
(** *** The request *)

Lemma js_inj s1 s2 : js s1 = js s2 -> s1 = s2.
Proof.
  unfold js. intros H.
  assert (Hmap : forall l1 l2 : list ascii,
            map N_of_ascii l1 = map N_of_ascii l2 -> l1 = l2).
  { induction l1 as [|a l1 IH]; intros [|b l2] E; try discriminate; [reflexivity|].
    injection E as Hab Hrest. f_equal; [|apply IH; exact Hrest].
    rewrite <- (ascii_N_embedding a), <- (ascii_N_embedding b), Hab. reflexivity. }
  apply Hmap in H.
  rewrite <- (string_of_list_ascii_of_string s1),
          <- (string_of_list_ascii_of_string s2), H.
  reflexivity.
Qed.

Lemma decimal_inj n1 n2 : decimal n1 = decimal n2 -> n1 = n2.
Proof.
  unfold decimal. intros H. apply js_inj in H.
  apply DecimalN.Unsigned.to_uint_inj.
  assert (Hsome : Some (N.to_uint n1) = Some (N.to_uint n2)).
  { rewrite <- !NilEmpty.usu, H. reflexivity. }
  injection Hsome as Hu. exact Hu.
Qed.

(** X15. Cache busting: the address requested is the published address
    of the sheet followed by [&t=] and the time stamp in decimal, so two
    runs at different milliseconds never request the same address. *)
Theorem request_url_differs (now1 now2 : N) :
  now1 <> now2 -> request_url now1 <> request_url now2.
Proof.
  unfold request_url. intros Hne H.
  apply app_inv_head, app_inv_head, decimal_inj in H. contradiction.
Qed.

Lemma request_url_differs_witness :
  request_url 1730000000000 <> request_url 1730000000001.
Proof.
  apply request_url_differs. discriminate.
Defined.

(* --------------------------------------------------------------------- *)
(** *** When the loop throws *)

Lemma for_of_TypeError_inv {A S} (body : S -> A -> result S) (l : list A) st :
  for_of body l st = TypeError ->
  exists x st', x ∈ l /\ body st' x = TypeError.
Proof.
  revert st. induction l as [|y l IH]; intros st; cbn [for_of]; [discriminate|].
  destruct (body st y) as [st1|] eqn:Hy.
  - intros H. destruct (IH _ H) as (x & st' & Hin & Hx).
    exists x, st'. split; [apply elem_of_cons; auto | exact Hx].
  - intros _. exists y, st. split; [apply elem_of_cons; auto | exact Hy].
Qed.

Lemma column_step_TypeError_inv rawKey st l c :
  column_step rawKey st (l, c) = TypeError ->
  l <> key_column /\ exists xs, c = Extra xs.
Proof.
  intros H. destruct (decide (l = key_column)) as [->|Hne].
  - rewrite column_step_key in H. discriminate.
  - split; [exact Hne|]. destruct c as [s|xs]; [|eauto].
    exfalso. destruct (decide (s = [])) as [->|Hs].
    + rewrite column_step_empty in H. discriminate.
    + destruct (column_step_store rawKey st l s Hne Hs) as (st' & Hst' & _).
      congruence.
Qed.

Lemma row_step_TypeError_inv st r :
  row_step st r = TypeError ->
  (exists xs, get key_column r = Some (Extra xs))
  \/ (exists key l xs, has_key r key /\ (l, Extra xs) ∈ r /\ l <> key_column).
Proof.
  intros H. destruct (has_key_dec r) as [[key Hkey]|Hno].
  - right. rewrite (row_step_has_key st r key Hkey) in H.
    apply for_of_TypeError_inv in H as ([l c] & st' & Hin & Hstep).
    apply column_step_TypeError_inv in Hstep as (Hne & xs & ->).
    exists key, l, xs. auto.
  - left. unfold row_step in H.
    destruct (get key_column r) as [[k|xs]|] eqn:Hk; [| eauto | discriminate].
    exfalso. destruct (decide (trim k = [])) as [E|Hne].
    + rewrite E in H. discriminate.
    + apply (Hno (trim k)). exists k. auto.
Qed.



(* --------------------------------------------------------------------- *)
(** *** The shape of the language maps *)

(** The tables after a cell has been stored, written out. *)
Lemma column_step_hit rawKey st l s :
  l <> key_column -> s <> [] ->
  column_step rawKey st (l, Str s)
  = Ok {| translations :=
            put l (put rawKey (safeValue s)
                     (default [] (get l (match get l (translations st) with
                                         | Some _ => translations st
                                         | None => put l [] (translations st)
                                         end))))
              (match get l (translations st) with
               | Some _ => translations st
               | None => put l [] (translations st)
               end);
          keyMap := keyMap st;
          languages := set_add l (languages st) |}.
Proof.
  intros Hl Hs. unfold column_step.
  rewrite bool_decide_eq_false_2 by exact Hl. simpl.
  rewrite bool_decide_eq_false_2 by exact Hs. reflexivity.
Qed.

Lemma column_step_shape rawKey st e st' :
  column_step rawKey st e = Ok st' ->
  property_order None (keys (translations st))
  /\ (forall l data, get l (translations st) = Some data ->
                     NoDup (keys data) /\ property_order None (keys data)) ->
  property_order None (keys (translations st'))
  /\ (forall l data, get l (translations st') = Some data ->
                     NoDup (keys data) /\ property_order None (keys data)).
Proof.
  destruct e as [l c]. intros Hstep [Houter Hinner].
  destruct (decide (l = key_column \/ falsy c = true)) as [Hskip|Hhit].
  - rewrite column_step_skip in Hstep by exact Hskip. injection Hstep as <-. auto.
  - assert (Hne : l <> key_column) by tauto.
    destruct c as [s|xs]; [|rewrite column_step_extra in Hstep by exact Hne; discriminate].
    assert (Hs : s <> []).
    { intros ->. apply Hhit. right. reflexivity. }
    rewrite (column_step_hit rawKey st l s Hne Hs) in Hstep.
    injection Hstep as <-. cbn [translations].
    set (tr1 := match get l (translations st) with
                | Some _ => translations st
                | None => put l [] (translations st)
                end).
    assert (Houter1 : property_order None (keys tr1)).
    { unfold tr1. destruct (get l (translations st)); [exact Houter|].
      apply property_order_put. exact Houter. }
    assert (Hinner1 : forall l' data, get l' tr1 = Some data ->
              NoDup (keys data) /\ property_order None (keys data)).
    { intros l' data. unfold tr1.
      destruct (get l (translations st)) eqn:Hget; [apply Hinner|].
      rewrite get_put. destruct (decide (l = l')) as [<-|Hl'].
      - intros [= <-]. split; [apply NoDup_nil_2 | exact I].
      - apply Hinner. }
    split; [apply property_order_put; exact Houter1|].
    intros l' data. rewrite get_put. destruct (decide (l = l')) as [<-|Hl'].
    + intros [= <-].
      assert (H0 : NoDup (keys (default [] (get l tr1)))
                   /\ property_order None (keys (default [] (get l tr1)))).
      { destruct (get l tr1) as [i|] eqn:Hi.
        - apply (Hinner1 l i Hi).
        - split; [apply NoDup_nil_2 | exact I]. }
      destruct H0 as [Hnd Hord].
      split; [apply NoDup_keys_put; exact Hnd | apply property_order_put; exact Hord].
    + apply Hinner1.
Qed.

Lemma row_step_shape st r st' :
  row_step st r = Ok st' ->
  property_order None (keys (translations st))
  /\ (forall l data, get l (translations st) = Some data ->
                     NoDup (keys data) /\ property_order None (keys data)) ->
  property_order None (keys (translations st'))
  /\ (forall l data, get l (translations st') = Some data ->
                     NoDup (keys data) /\ property_order None (keys data)).
Proof.
  intros Hstep Hinv. destruct (has_key_dec r) as [[key Hkey]|Hno].
  - rewrite (row_step_has_key st r key Hkey) in Hstep.
    refine (for_of_invariant (column_step key)
              (fun st =>
                 property_order None (keys (translations st))
                 /\ (forall l data, get l (translations st) = Some data ->
                        NoDup (keys data) /\ property_order None (keys data)))
              r _ _ st' Hstep Hinv).
    intros st0 e st1. apply column_step_shape.
  - apply (row_step_no_key _ _ _ Hno) in Hstep. subst st'. exact Hinv.
Qed.

(** X17. The shape of the language files: every language map lists each
    of its keys once, its keys that are array indices come first in
    ascending order, and the same holds for the order in which the
    languages themselves are kept and written. *)
Theorem language_maps_are_well_formed rows st :
  transform rows = Ok st ->
  NoDup (keys (translations st))
  /\ property_order None (keys (translations st))
  /\ (forall l data, get l (translations st) = Some data ->
                     NoDup (keys data) /\ property_order None (keys data)).
Proof.
  intros Hrun. split.
  - destruct (transform_Ok _ _ _ Hrun) as (_ & _ & Hn & _). apply Hn, NoDup_nil_2.
  - unfold transform, transform_from in Hrun.
    refine (for_of_invariant row_step
              (fun st =>
                 property_order None (keys (translations st))
                 /\ (forall l data, get l (translations st) = Some data ->
                        NoDup (keys data) /\ property_order None (keys data)))
              rows _ _ st Hrun _).
    + intros st0 r st1. apply row_step_shape.
    + split; [exact I|]. intros l data. discriminate.
Qed.

Lemma language_maps_are_well_formed_witness :
  NoDup (keys (translations Examples.sheet_tables))
  /\ property_order None (keys (translations Examples.sheet_tables))
  /\ (forall l data, get l (translations Examples.sheet_tables) = Some data ->
                     NoDup (keys data) /\ property_order None (keys data)).
Proof.
  apply (language_maps_are_well_formed Examples.sheet_rows Examples.sheet_tables).
  vm_compute. reflexivity.
Defined.

(* ===================================================================== *)
(** ** The scenario, the escaping, and the sheets of ordinary names *)
(* ===================================================================== *)

Lemma NoDup_sheet_files : NoDup Examples.sheet_files.*1.
Proof.
  apply NoDup_ListNoDup. vm_compute.
  repeat constructor; simpl; intuition discriminate.
Qed.

(** C1. End-to-end scenario: for the text [key,en,fr / hello,Hello,Bonjour
    / bye,Bye,], read as a record [hello] with [en = Hello], [fr = Bonjour]
    and a record [bye] with [en = Bye] and an empty [fr] cell, the run
    builds [en = {hello: Hello, bye: Bye}], [fr = {hello: Bonjour}]
    without a [bye] key, the key registry [{hello: hello, bye: bye}] and
    the languages [en, fr] in that order, and writes exactly the four
    files [en.json], [fr.json], [keys.json] and [languages.json]: after
    the run the output directory exists, each of the four files holds
    these contents, and every other file is as it was. *)
Theorem end_to_end_scenario (parse : jsstring -> list row) (d : disk) :
  parse sheet = sheet_rows ->
  transform (parse sheet) = Ok sheet_tables
  /\ stored sheet_tables (js "fr") (js "bye") = None
  /\ written parse sheet = Ok sheet_files
  /\ generateTranslations parse sheet d = Ok (write_all sheet_files d)
  /\ exists d',
       generateTranslations parse sheet d = Ok d'
       /\ locales_dir d' = true
       /\ (forall name contents,
              (name, contents) ∈ sheet_files -> files d' !! name = Some contents)
       /\ (forall name,
              name ∉ [js "en.json"; js "fr.json"; js "keys.json"; js "languages.json"] ->
              files d' !! name = files d !! name).
Proof.
  intros Hparse. unfold written, generateTranslations.
  rewrite Hparse, transform_sheet, writes_sheet.
  split; [reflexivity|]. split; [reflexivity|]. split; [reflexivity|].
  split; [reflexivity|].
  exists (write_all sheet_files d). split; [reflexivity|].
  split; [apply locales_dir_write_all|]. split.
  - intros name contents Hin. apply files_written_once; [apply NoDup_sheet_files | exact Hin].
  - intros name Hname. apply files_not_written. exact Hname.
Qed.

Lemma end_to_end_scenario_witness :
  Papa.parse sheet = sheet_rows
  /\ exists d',
       generateTranslations Papa.parse sheet no_disk = Ok d'
       /\ locales_dir d' = true
       /\ (forall name contents,
              (name, contents) ∈ sheet_files -> files d' !! name = Some contents)
       /\ (forall name,
              name ∉ [js "en.json"; js "fr.json"; js "keys.json"; js "languages.json"] ->
              files d' !! name = files no_disk !! name).
Proof.
  assert (H : Papa.parse sheet = sheet_rows) by (vm_compute; reflexivity).
  split; [exact H|].
  exact (proj2 (proj2 (proj2 (proj2 (end_to_end_scenario Papa.parse no_disk H))))).
Defined.

Lemma trim_head s x r : trim s = x :: r -> is_white_space x = false.
Proof.
  unfold trim. intros H.
  destruct (trimEnd_prefix (trimStart s)) as [t Ht]. rewrite H in Ht.
  destruct (trimStart_head s) as [E | (x0 & r0 & E & Hws)].
  - rewrite E in Ht. discriminate.
  - rewrite E in Ht. injection Ht as -> _. exact Hws.
Qed.

Lemma trim_last s l y : trim s = l ++ [y] -> is_white_space y = false.
Proof.
  unfold trim, trimEnd. intros H.
  assert (Hrev : trimStart (rev (trimStart s)) = y :: rev l).
  { rewrite <- (rev_involutive (trimStart (rev (trimStart s)))), H.
    rewrite rev_app_distr. reflexivity. }
  destruct (trimStart_head (rev (trimStart s))) as [E | (x0 & r0 & E & Hws)].
  - rewrite E in Hrev. discriminate.
  - rewrite E in Hrev. injection Hrev as -> _. exact Hws.
Qed.

Lemma replace_newline_at_CRLF a b :
  replace_newline (a ++ [CR; LF] ++ b)
  = replace_newline a ++ [BACKSLASH; LETTER_n] ++ replace_newline b.
Proof.
  cbn [app]. rewrite replace_newline_split by discriminate.
  rewrite replace_newline_CRLF. reflexivity.
Qed.

Lemma replace_newline_at_LF a x b :
  x <> CR -> x <> LF ->
  replace_newline (a ++ [x; LF] ++ b)
  = replace_newline a ++ [x; BACKSLASH; LETTER_n] ++ replace_newline b.
Proof.
  intros Hcr Hlf. cbn [app]. rewrite replace_newline_split by exact Hlf.
  rewrite replace_newline_other by assumption.
  rewrite replace_newline_LF. reflexivity.
Qed.

(** C2. Escaping order: the value stored for a cell is the trimmed result
    of doubling every backslash, then putting a backslash before every
    double quote, then turning every line feed (with the carriage return
    before it, if any) into backslash-n.  Each step replaces every
    occurrence; no stored value holds a raw line feed or has white space
    at either end.  A cell value that contains a backslash followed by a
    quote is stored with three backslashes and the quote in its place
    (for a key other than [__proto__] and a language column that is not
    named like a property of [Object.prototype], where the assignment
    stores); the two-character value itself is stored as these four code
    units, not as two backslashes and a quote; escaping the quote before
    the backslash would give another result, and the backslash of a
    replaced line feed is not doubled. *)
Theorem escape_order :
  (forall value,
      safeValue value
      = trim (replace_newline (replace_quote (replace_backslash value))))
  /\ (forall a b,
         replace_backslash (a ++ [BACKSLASH] ++ b)
         = replace_backslash a ++ [BACKSLASH; BACKSLASH] ++ replace_backslash b)
  /\ (forall a b,
         replace_quote (a ++ [QUOTE] ++ b)
         = replace_quote a ++ [BACKSLASH; QUOTE] ++ replace_quote b)
  /\ (forall a b,
         replace_newline (a ++ [CR; LF] ++ b)
         = replace_newline a ++ [BACKSLASH; LETTER_n] ++ replace_newline b)
  /\ (forall a x b,
         x <> CR -> x <> LF ->
         replace_newline (a ++ [x; LF] ++ b)
         = replace_newline a ++ [x; BACKSLASH; LETTER_n] ++ replace_newline b)
  /\ (forall b,
         replace_newline (LF :: b) = BACKSLASH :: LETTER_n :: replace_newline b)
  /\ (forall value, LF ∉ safeValue value)
  /\ (forall value x r, safeValue value = x :: r -> is_white_space x = false)
  /\ (forall value l y, safeValue value = l ++ [y] -> is_white_space y = false)
  /\ (forall value,
         occurs_in [BACKSLASH; QUOTE] value ->
         occurs_in [BACKSLASH; BACKSLASH; BACKSLASH; QUOTE] (safeValue value))
  /\ (forall rawKey st lang value,
         rawKey <> proto -> own_name lang = true ->
         lang <> key_column ->
         occurs_in [BACKSLASH; QUOTE] value ->
         exists st' s,
           column_step rawKey st (lang, Str value) = Ok st'
           /\ stored st' lang rawKey = Some s
           /\ s = safeValue value
           /\ occurs_in [BACKSLASH; BACKSLASH; BACKSLASH; QUOTE] s)
  /\ safeValue [BACKSLASH; QUOTE] = [BACKSLASH; BACKSLASH; BACKSLASH; QUOTE]
  /\ safeValue [BACKSLASH; QUOTE] <> [BACKSLASH; BACKSLASH; QUOTE]
  /\ trim (replace_newline (replace_backslash (replace_quote [BACKSLASH; QUOTE])))
     <> safeValue [BACKSLASH; QUOTE]
  /\ safeValue (js " a" ++ [LF] ++ js "b ") = js "a" ++ [BACKSLASH; LETTER_n] ++ js "b".
Proof.
  assert (Hocc : forall value,
            occurs_in [BACKSLASH; QUOTE] value ->
            occurs_in [BACKSLASH; BACKSLASH; BACKSLASH; QUOTE] (safeValue value)).
  { intros value (a & b & ->). unfold safeValue.
    apply (trim_keeps_run BACKSLASH [BACKSLASH; BACKSLASH] QUOTE);
      [reflexivity | reflexivity |].
    rewrite replacements_backslash_quote. eexists _, _. reflexivity. }
  split; [reflexivity|].
  split; [intros a b; rewrite !replace_backslash_app; reflexivity|].
  split; [intros a b; rewrite !replace_quote_app; reflexivity|].
  split; [apply replace_newline_at_CRLF|].
  split; [apply replace_newline_at_LF|].
  split; [apply replace_newline_LF|].
  split; [apply safeValue_no_LF|].
  split; [intros value x r; unfold safeValue; apply trim_head|].
  split; [intros value l y; unfold safeValue; apply trim_last|].
  split; [exact Hocc|].
  split; [|repeat split; vm_compute; try discriminate; reflexivity].
  intros rawKey st lang value _ _ Hlang Hvalue.
  assert (Hne : value <> []).
  { destruct Hvalue as (a & b & ->). destruct a; discriminate. }
  destruct (column_step_store rawKey st lang value Hlang Hne)
    as (st' & Hstep & Hstored & _).
  exists st', (safeValue value). repeat split.
  - exact Hstep.
  - rewrite Hstored. apply decide_True. split; reflexivity.
  - apply Hocc. exact Hvalue.
Qed.

Lemma escape_order_witness :
  exists st' s,
    column_step (js "hello") empty_tables
      (js "en", Str (js "say " ++ [BACKSLASH; QUOTE] ++ js "hi")) = Ok st'
    /\ stored st' (js "en") (js "hello") = Some s
    /\ s = safeValue (js "say " ++ [BACKSLASH; QUOTE] ++ js "hi")
    /\ occurs_in [BACKSLASH; BACKSLASH; BACKSLASH; QUOTE] s.
Proof.
  refine (proj1 (proj2 (proj2 (proj2 (proj2 (proj2 (proj2 (proj2 (proj2
            (proj2 (proj2 escape_order)))))))))) _ _ _ _ _ _ _ _).
  - discriminate.
  - reflexivity.
  - discriminate.
  - exists (js "say "), (js "hi"). reflexivity.
Defined.

(** C10 (amended). For a record with a non-empty trimmed key other than
    [__proto__] and a language column that is not named like a property
    of [Object.prototype], a cell that is not empty, consists of white
    space only and holds no line feed (a single space, say) does create
    an entry: the stored value is the empty string and the language is
    added to the language set. *)
Theorem blank_cell_stored_empty rawKey st lang value :
  rawKey <> proto -> own_name lang = true ->
  lang <> key_column ->
  value <> [] -> blank value -> LF ∉ value ->
  exists st',
    column_step rawKey st (lang, Str value) = Ok st'
    /\ stored st' lang rawKey = Some []
    /\ lang ∈ keys (translations st')
    /\ lang ∈ languages st'.
Proof.
  intros _ _ Hlang Hvalue Hblank Hlf.
  destruct (column_step_store rawKey st lang value Hlang Hvalue)
    as (st' & Hstep & Hstored & Hkeys & _ & _ & Hlangs).
  exists st'. repeat split.
  - exact Hstep.
  - rewrite Hstored, decide_True by (split; reflexivity).
    rewrite (safeValue_blank value Hblank Hlf). reflexivity.
  - apply Hkeys. auto.
  - rewrite Hlangs. apply elem_of_set_add. auto.
Qed.

Lemma blank_cell_stored_empty_witness :
  exists st',
    column_step (js "hello") empty_tables (js "en", Str (js " ")) = Ok st'
    /\ stored st' (js "en") (js "hello") = Some []
    /\ js "en" ∈ keys (translations st')
    /\ js "en" ∈ languages st'.
Proof.
  apply (blank_cell_stored_empty (js "hello") empty_tables (js "en") (js " ")).
  - discriminate.
  - reflexivity.
  - discriminate.
  - discriminate.
  - repeat constructor.
  - intros H. apply list_elem_of_singleton in H. discriminate.
Defined.



(** C3 (amended). In every run that completes, on a sheet whose filled
    language columns have plain names (not named like a property of
    [Object.prototype], printable ASCII without a slash) and whose keys
    are not [__proto__], the writer emits exactly one [<lang>.json] file
    per language code for which some record with a non-empty trimmed key
    has a non-empty cell, followed by the two manifest files; these
    language codes are the members of the language set, and a header
    column whose cells are all empty gets no file. *)
Theorem one_file_per_filled_language parse text ws :
  written parse text = Ok ws ->
  ordinary_sheet (parse text) = true ->
  flat_sheet (parse text) = true ->
  exists st langs,
    transform (parse text) = Ok st
    /\ ws.*1 = (json_file <$> langs) ++ [keys_json; languages_json]
    /\ NoDup langs
    /\ NoDup (json_file <$> langs)
    /\ (forall lang, lang ∈ langs <-> contributes (parse text) lang)
    /\ (forall lang, lang ∈ langs <-> lang ∈ languages st).
Proof.
  unfold written. destruct (transform (parse text)) as [st|] eqn:Hrun; [|discriminate].
  intros [= <-] _ _.
  destruct (transform_Ok _ _ _ Hrun) as (_ & Hk & Hn & Hl & _).
  exists st, (keys (translations st)). repeat split.
  - apply writes_names.
  - apply Hn, NoDup_empty_tables.
  - apply (@NoDup_fmap_2 _ _ json_file json_file_inj). apply Hn, NoDup_empty_tables.
  - intros H. apply Hk in H as [H|H]; [exact H|].
    apply elem_of_nil in H. contradiction.
  - intros H. apply Hk. auto.
  - intros H. apply Hl. apply Hk in H as [H|H]; [auto|].
    apply elem_of_nil in H. contradiction.
  - intros H. apply Hk. apply Hl in H as [H|H]; [auto|].
    apply elem_of_nil in H. contradiction.
Qed.

Lemma one_file_per_filled_language_witness :
  exists st langs,
    transform (Papa.parse sheet_empty_column) = Ok st
    /\ [js "en.json"; js "keys.json"; js "languages.json"]
       = (json_file <$> langs) ++ [keys_json; languages_json]
    /\ NoDup langs
    /\ NoDup (json_file <$> langs)
    /\ (forall lang, lang ∈ langs <-> contributes (Papa.parse sheet_empty_column) lang)
    /\ (forall lang, lang ∈ langs <-> lang ∈ languages st).
Proof.
  apply (one_file_per_filled_language Papa.parse sheet_empty_column
           [(js "en.json",
             lines [js "{"; js "  " ++ quoted "hello" ++ js ": " ++ quoted "Hello"; js "}"]);
            (js "keys.json",
             lines [js "{"; js "  " ++ quoted "hello" ++ js ": " ++ quoted "hello"; js "}"]);
            (js "languages.json", lines [js "["; js "  " ++ quoted "en"; js "]"])]).
  - vm_compute. reflexivity.
  - vm_compute. reflexivity.
  - vm_compute. reflexivity.
Defined.

(** C4 (amended). If a language column is literally named [keys] (or
    [languages]) and has a non-empty cell on a record with a non-empty
    key, the run first writes that language's translation map to
    [keys.json] (respectively [languages.json]), so that the file holds
    that map once the language files are written, and then overwrites it
    with the manifest: when the run is over [keys.json] holds the key
    registry and [languages.json] the list of languages (on a sheet whose
    keys are not [__proto__] and whose filled language columns have plain
    names). *)
Theorem reserved_column_overwritten parse text d st reserved :
  transform (parse text) = Ok st ->
  ordinary_sheet (parse text) = true ->
  flat_sheet (parse text) = true ->
  reserved = js "keys" \/ reserved = js "languages" ->
  contributes (parse text) reserved ->
  (exists data,
      get reserved (translations st) = Some data
      /\ (json_file reserved, stringify_object data) ∈ language_writes st
      /\ files (write_all (language_writes st) d) !! json_file reserved
         = Some (stringify_object data))
  /\ (json_file reserved = keys_json \/ json_file reserved = languages_json)
  /\ writes st
     = language_writes st
       ++ [(keys_json, stringify_object (keyMap st));
           (languages_json, stringify_array (languages st))]
  /\ exists d',
       generateTranslations parse text d = Ok d'
       /\ files d' !! keys_json = Some (stringify_object (keyMap st))
       /\ files d' !! languages_json = Some (stringify_array (languages st)).
Proof.
  intros Hrun _ _ Hreserved Hcontrib.
  destruct (transform_Ok _ _ _ Hrun) as (_ & Hk & Hn & _).
  assert (Hin : reserved ∈ keys (translations st)) by (apply Hk; auto).
  apply get_is_Some in Hin as [data Hdata].
  split; [|split; [|split]].
  - assert (Hwritten : (json_file reserved, stringify_object data)
                        ∈ language_writes st).
    { apply get_Some_elem in Hdata. unfold language_writes.
      apply (list_elem_of_fmap_2
               (fun entry => (json_file entry.1, stringify_object entry.2))) in Hdata.
      exact Hdata. }
    exists data. split; [exact Hdata|]. split; [exact Hwritten|].
    apply files_written_once; [|exact Hwritten].
    rewrite language_writes_names.
    apply (@NoDup_fmap_2 _ _ json_file json_file_inj). apply Hn, NoDup_nil_2.
  - destruct Hreserved as [-> | ->]; [left | right]; reflexivity.
  - reflexivity.
  - exists (write_all (writes st) d). unfold generateTranslations. rewrite Hrun.
    split; [reflexivity|]. apply manifests_last.
Qed.

Lemma reserved_column_overwritten_witness :
  exists d',
    generateTranslations Papa.parse sheet_reserved no_disk = Ok d'
    /\ files d' !! keys_json = Some keys_registry
    /\ files d' !! languages_json = Some languages_list.
Proof.
  refine (proj2 (proj2 (proj2
    (reserved_column_overwritten Papa.parse sheet_reserved no_disk
       {| translations := [(js "keys", [(js "hello", js "Hola")]);
                           (js "languages", [(js "hello", js "Salut")])];
          keyMap := [(js "hello", js "hello")];
          languages := [js "keys"; js "languages"] |}
       (js "keys") _ _ _ _ _)))).
  - vm_compute. reflexivity.
  - vm_compute. reflexivity.
  - vm_compute. reflexivity.
  - left. reflexivity.
  - exists [(js "key", Str (js "hello")); (js "keys", Str (js "Hola"));
            (js "languages", Str (js "Salut"))], (js "hello").
    split; [|split].
    + apply list_elem_of_In. vm_compute. left. reflexivity.
    + exists (js "hello"). repeat split; discriminate.
    + split; [discriminate|]. exists (Str (js "Hola")).
      split; [|reflexivity].
      apply elem_of_cons. right. apply elem_of_cons. left. reflexivity.
Defined.

(* --------------------------------------------------------------------- *)
(** *** The order of the keys inside a language map *)







(** After the writes of a run, the file of a language that does not
    share its name with a manifest holds that language's map. *)
Lemma language_file_lookup rows st d lang data :
  transform rows = Ok st ->
  get lang (translations st) = Some data ->
  lang <> js "keys" -> lang <> js "languages" ->
  files (write_all (writes st) d) !! json_file lang = Some (stringify_object data).
Proof.
  intros Hrun Hdata Hk Hl. unfold writes.
  change [(keys_json, stringify_object (keyMap st));
          (languages_json, stringify_array (languages st))]
    with ([(keys_json, stringify_object (keyMap st))]
          ++ [(languages_json, stringify_array (languages st))]).
  rewrite app_assoc, !write_all_snoc. simpl.
  rewrite !lookup_insert_ne.
  - apply files_written_once.
    + rewrite language_writes_names.
      apply (@NoDup_fmap_2 _ _ json_file json_file_inj).
      destruct (transform_Ok _ _ _ Hrun) as (_ & _ & Hn & _).
      apply Hn, NoDup_nil_2.
    + apply get_Some_elem in Hdata. unfold language_writes.
      apply (list_elem_of_fmap_2
               (fun entry => (json_file entry.1, stringify_object entry.2))) in Hdata.
      exact Hdata.
  - intros E. apply Hk. apply json_file_inj. symmetry. exact E.
  - intros E. apply Hl. apply json_file_inj. symmetry. exact E.
Qed.




(* --------------------------------------------------------------------- *)
(** *** Further properties, on sheets of ordinary names *)

(** X2. The key registry maps every key to itself and holds each key
    once; a key other than [__proto__] is in the registry exactly when it
    is the trimmed key of a record that has one. *)
Theorem registry_maps_keys_to_themselves rows st :
  transform rows = Ok st ->
  (forall k v, get k (keyMap st) = Some v -> v = k)
  /\ NoDup (keys (keyMap st))
  /\ (forall k, k <> proto ->
                 (get k (keyMap st) = Some k <-> exists r, r ∈ rows /\ has_key r k)).
Proof.
  intros Hrun.
  pose proof (transform_keyMap _ _ _ Hrun) as Hmap. simpl in Hmap.
  destruct (registry_invariant [] (omap row_key rows)) as [Hnd Hself].
  { apply NoDup_nil_2. }
  { intros k v. discriminate. }
  rewrite <- Hmap in Hnd, Hself.
  destruct (transform_Ok _ _ _ Hrun) as (_ & _ & _ & _ & _ & Hkeys).
  split; [exact Hself|]. split; [exact Hnd|].
  intros k _. split.
  - intros Hk. assert (Hin : k ∈ keys (keyMap st)).
    { apply get_is_Some. rewrite Hk. eexists; reflexivity. }
    apply Hkeys in Hin as [H|H]; [exact H|]. apply elem_of_nil in H. contradiction.
  - intros H. assert (Hin : k ∈ keys (keyMap st)) by (apply Hkeys; auto).
    apply get_is_Some in Hin as [v Hv]. rewrite Hv. f_equal. eapply Hself. exact Hv.
Qed.

Lemma registry_maps_keys_to_themselves_witness :
  (forall k v, get k (keyMap Examples.sheet_tables) = Some v -> v = k)
  /\ NoDup (keys (keyMap Examples.sheet_tables))
  /\ (forall k, k <> proto ->
                 (get k (keyMap Examples.sheet_tables) = Some k
                  <-> exists r, r ∈ Examples.sheet_rows /\ has_key r k)).
Proof.
  apply (registry_maps_keys_to_themselves Examples.sheet_rows Examples.sheet_tables).
  vm_compute. reflexivity.
Defined.

(** X5. How the containers fit together at the end of a pass: every key
    of a language map is in the key registry and its language is in the
    language set; the language set lists each language once and never
    holds the [key] column; and on a sheet where no key is [__proto__]
    and no filled language column is named like a property of
    [Object.prototype], every language of the set has at least one entry,
    so no language map is empty. *)
Theorem tables_fit_together rows st :
  transform rows = Ok st ->
  (forall l k v, stored st l k = Some v ->
                 k ∈ keys (keyMap st) /\ l ∈ languages st)
  /\ NoDup (languages st)
  /\ (key_column ∉ languages st)
  /\ (ordinary_sheet rows = true ->
      (forall l, l ∈ languages st -> exists k v, stored st l k = Some v)
      /\ (forall l data, get l (translations st) = Some data -> data <> [])).
Proof.
  intros Hrun.
  destruct (transform_Ok _ _ _ Hrun) as (_ & Hk & _ & Hl & Hd & Hm).
  pose proof (transform_keeps_entries rows st Hrun) as Hentries.
  split; [|split; [|split; [|intros _; split]]].
  - intros l k v H. split.
    + destruct (transform_provenance _ _ _ _ _ _ Hrun H)
        as [Hold | (r & raw & Hin & Hkey & _)]; [discriminate|].
      apply Hm. left. eauto.
    + destruct (transform_provenance _ _ _ _ _ _ Hrun H)
        as [Hold | (r & raw & Hin & Hkey & Hne & Hcell & Hraw & _)]; [discriminate|].
      apply Hl. left. exists r, k. repeat split; [exact Hin | exact Hkey | exact Hne |].
      exists (Str raw). split; [exact Hcell|].
      simpl. apply bool_decide_eq_false_2. exact Hraw.
  - apply Hd. apply NoDup_nil_2.
  - intros Hin. apply Hl in Hin as [(r & key & _ & _ & Hne & _)|Hin].
    + apply Hne. reflexivity.
    + apply elem_of_nil in Hin. exact Hin.
  - intros l Hin. apply Hentries. apply Hk. apply Hl in Hin. exact Hin.
  - intros l data Hdata ->.
    assert (Hin : l ∈ keys (translations st)).
    { apply get_is_Some. rewrite Hdata. eexists; reflexivity. }
    destruct (Hentries l Hin) as (k & v & Hv).
    unfold stored in Hv. rewrite Hdata in Hv. discriminate.
Qed.

Lemma tables_fit_together_witness :
  (forall l, l ∈ languages Examples.sheet_tables ->
             exists k v, stored Examples.sheet_tables l k = Some v)
  /\ (forall l data, get l (translations Examples.sheet_tables) = Some data ->
                     data <> []).
Proof.
  refine (proj2 (proj2 (proj2
            (tables_fit_together Examples.sheet_rows Examples.sheet_tables _))) _).
  - vm_compute. reflexivity.
  - vm_compute. reflexivity.
Defined.

(** X6. The writer only adds: after a run the output directory exists,
    and every file whose name is neither [keys.json], [languages.json]
    nor [<lang>.json] for a language of the language set holds what it
    held before; files of languages that left the sheet are not
    removed.  (For a sheet whose keys are not [__proto__] and whose
    filled language columns have plain names, so that every write goes
    to a file of the output directory under its own name.) *)
Theorem other_files_untouched (parse : jsstring -> list row) text d d' st :
  transform (parse text) = Ok st ->
  ordinary_sheet (parse text) = true ->
  flat_sheet (parse text) = true ->
  generateTranslations parse text d = Ok d' ->
  locales_dir d' = true
  /\ forall name,
       name <> keys_json -> name <> languages_json ->
       (forall lang, lang ∈ languages st -> name <> json_file lang) ->
       files d' !! name = files d !! name.
Proof.
  intros Hrun _ _. unfold generateTranslations. rewrite Hrun. intros [= <-].
  split; [apply locales_dir_write_all|].
  intros name Hk Hl Hlang. apply files_not_written.
  rewrite writes_names, not_elem_of_app. split.
  - intros Hin. apply list_elem_of_fmap in Hin as (lang & -> & Hin).
    apply (Hlang lang); [|reflexivity].
    destruct (transform_Ok _ _ _ Hrun) as (_ & Hkeys & _ & Hlangs & _).
    apply Hlangs. apply Hkeys in Hin. exact Hin.
  - rewrite !not_elem_of_cons. repeat split; [exact Hk | exact Hl |].
    apply not_elem_of_nil.
Qed.

Lemma other_files_untouched_witness :
  locales_dir (write_all Examples.sheet_files
                 {| locales_dir := false;
                    files := {[ js "de.json" := js "{}" ]} |}) = true
  /\ forall name,
       name <> keys_json -> name <> languages_json ->
       (forall lang, lang ∈ languages Examples.sheet_tables -> name <> json_file lang) ->
       files (write_all Examples.sheet_files
                {| locales_dir := false;
                   files := {[ js "de.json" := js "{}" ]} |}) !! name
       = ({[ js "de.json" := js "{}" ]} : gmap jsstring jsstring) !! name.
Proof.
  refine (other_files_untouched Papa.parse Examples.sheet
            {| locales_dir := false; files := {[ js "de.json" := js "{}" ]} |}
            (write_all Examples.sheet_files
               {| locales_dir := false; files := {[ js "de.json" := js "{}" ]} |})
            Examples.sheet_tables _ _ _ _).
  - vm_compute. reflexivity.
  - vm_compute. reflexivity.
  - vm_compute. reflexivity.
  - vm_compute. reflexivity.
Defined.

(** X7. After a run on a sheet whose keys are not [__proto__] and whose
    filled language columns have plain names, the file [<lang>.json] of
    every language whose code is neither [keys] nor [languages] holds
    that language's map, serialised with two-space indentation. *)
Theorem language_file_holds_its_map (parse : jsstring -> list row) text d d' st lang data :
  transform (parse text) = Ok st ->
  ordinary_sheet (parse text) = true ->
  flat_sheet (parse text) = true ->
  generateTranslations parse text d = Ok d' ->
  get lang (translations st) = Some data ->
  lang <> js "keys" -> lang <> js "languages" ->
  files d' !! json_file lang = Some (stringify_object data).
Proof.
  intros Hrun _ _. unfold generateTranslations. rewrite Hrun.
  intros [= <-] Hdata Hk Hl.
  eapply language_file_lookup; eassumption.
Qed.

Lemma language_file_holds_its_map_witness :
  files (write_all Examples.sheet_files Examples.no_disk) !! json_file (js "fr")
  = Some (stringify_object [(js "hello", js "Bonjour")]).
Proof.
  apply (language_file_holds_its_map Papa.parse Examples.sheet Examples.no_disk
           _ Examples.sheet_tables).
  - vm_compute. reflexivity.
  - vm_compute. reflexivity.
  - vm_compute. reflexivity.
  - vm_compute. reflexivity.
  - vm_compute. reflexivity.
  - discriminate.
  - discriminate.
Defined.

(** X9. The order of [keys.json]: the keys that are array indices (the
    canonical decimal form of an integer below 2^32 - 1) come first, in
    ascending numeric order; on a sheet where no key is [__proto__] the
    other keys follow in the order in which the records first carry
    them. *)
Theorem registry_key_order rows st :
  transform rows = Ok st ->
  property_order None (keys (keyMap st))
  /\ (ordinary_sheet rows = true ->
      List.filter not_index (keys (keyMap st))
      = first_seen (List.filter not_index (omap row_key rows))).
Proof.
  intros Hrun. rewrite (transform_keyMap _ _ _ Hrun).
  destruct (registry_order [] (omap row_key rows) I) as [H1 H2].
  split; [exact H1 | intros _; exact H2].
Qed.

Lemma registry_key_order_witness :
  property_order None [js "9"; js "10"; js "b"; js "a"]
  /\ List.filter not_index [js "9"; js "10"; js "b"; js "a"]
     = first_seen
         (List.filter not_index
            (omap row_key
               [[(js "key", Str (js "b"))]; [(js "key", Str (js "10"))];
                [(js "key", Str (js "a"))]; [(js "key", Str (js "9"))];
                [(js "key", Str (js "b"))]])).
Proof.
  destruct (registry_key_order
              [[(js "key", Str (js "b"))]; [(js "key", Str (js "10"))];
               [(js "key", Str (js "a"))]; [(js "key", Str (js "9"))];
               [(js "key", Str (js "b"))]]
              {| translations := [];
                 keyMap := [(js "9", js "9"); (js "10", js "10");
                            (js "b", js "b"); (js "a", js "a")];
                 languages := [] |}
              ltac:(vm_compute; reflexivity)) as [H1 H2].
  split; [exact H1 | apply H2; vm_compute; reflexivity].
Defined.

(** X13. A record is never skipped when its key cell is text with at
    least one code unit that is not white space: whenever the loop body
    completes on it, the trimmed key, if it is not [__proto__], is in the
    registry, mapped to itself. *)
Theorem keyed_record_is_registered st r k st' :
  get key_column r = Some (Str k) -> ~ blank k -> trim k <> proto ->
  row_step st r = Ok st' ->
  has_key r (trim k) /\ get (trim k) (keyMap st') = Some (trim k).
Proof.
  intros Hk Hblank _ Hstep.
  assert (Hkey : has_key r (trim k)).
  { exists k. repeat split; [exact Hk|].
    intros Hnil. apply Hblank. apply trim_nil_blank. exact Hnil. }
  split; [exact Hkey|].
  rewrite (row_step_keyMap _ _ _ Hstep).
  apply row_key_has_key in Hkey. rewrite Hkey. apply get_put_eq.
Qed.

Lemma keyed_record_is_registered_witness :
  has_key [(js "key", Str (js " bye ")); (js "en", Str (js "Bye"))] (trim (js " bye "))
  /\ get (trim (js " bye "))
       [(js "hello", js "hello"); (js "bye", js "bye")]
     = Some (trim (js " bye ")).
Proof.
  refine (keyed_record_is_registered
            {| translations := []; keyMap := [(js "hello", js "hello")];
               languages := [] |}
            [(js "key", Str (js " bye ")); (js "en", Str (js "Bye"))]
            (js " bye ")
            {| translations := [(js "en", [(js "bye", js "Bye")])];
               keyMap := [(js "hello", js "hello"); (js "bye", js "bye")];
               languages := [js "en"] |} _ _ _ _).
  - reflexivity.
  - intros H. apply Forall_cons in H as [_ H]. apply Forall_cons in H as [H _].
    discriminate.
  - vm_compute. discriminate.
  - vm_compute. reflexivity.
Defined.

(** X16. The only way a pass fails on a sheet where no key is
    [__proto__] and no filled column of a record with a key is named like
    a property of [Object.prototype]: the loop throws exactly when some
    record holds a cell that is not text where the loop calls a string
    method on it, that is in its key cell, or in another column of a
    record that has a key.  Such a sheet whose records hold text only is
    always processed to the end. *)
Theorem pass_fails_only_on_non_text_cell rows :
  ordinary_sheet rows = true ->
  (transform rows = TypeError
   <-> exists r, r ∈ rows
       /\ ((exists xs, get key_column r = Some (Extra xs))
           \/ (exists key l xs,
                  has_key r key /\ (l, Extra xs) ∈ r /\ l <> key_column)))
  /\ (Forall text_row rows -> exists st, transform rows = Ok st).
Proof.
  intros _. split; [split|].
  - intros H. apply for_of_TypeError_inv in H as (r & st' & Hin & Hr).
    exists r. split; [exact Hin|]. eapply row_step_TypeError_inv. exact Hr.
  - intros (r & Hin & Hr). unfold transform, transform_from.
    apply (for_of_throws row_step _ r); [exact Hin|].
    intros st'. apply row_step_throws. exact Hr.
  - apply transform_total.
Qed.

Lemma pass_fails_only_on_non_text_cell_witness :
  exists st, transform Examples.sheet_rows = Ok st.
Proof.
  apply (proj2 (pass_fails_only_on_non_text_cell Examples.sheet_rows
                  ltac:(vm_compute; reflexivity))).
  repeat constructor; intros l c Hin;
    repeat (apply elem_of_cons in Hin as [Hin|Hin];
            [injection Hin as -> ->; eexists; reflexivity|]);
    apply elem_of_nil in Hin; contradiction.
Defined.
